(** * Veerji-Lang: lexer, parser and code generator

    A shallow embedding of [src/lexer.c], [src/parser.c] and [src/codegen.c].

    Conventions of the embedding.
    - A byte ([char]) is an [ascii]; a [const char*] is the list of bytes found
      from the pointer onwards.  The C string it denotes, [cstr], stops before
      the first NUL byte; reading past the end of the list reads the
      terminating NUL.  Pointer arithmetic [p + n] is [drop n p].
    - A [char value[512]] member is a list of 512 bytes, written by index.
    - [tokens[count++] = t] appends [t] to the tokens written so far; the
      returned [count] is the length of that list.
    - A [Program] is the sequence [statements[0 .. count-1]]; [count] is its
      length.  All counters are C [int]s that only count upwards to a length,
      they are natural numbers here.
    - [fprintf] to a stream appends bytes to the stream's contents; [exit]
      ends the run with a status and what was written to [stderr]. *)

From Stdlib Require Import ZArith Ascii String DecimalString.
From Stdlib Require DecimalFacts DecimalNat.
From stdpp Require Import base tactics list sets strings.

Open Scope list_scope.

(** ** Bytes and C strings *)

Module CString.

Definition NUL : ascii := "000"%char.
Definition LF : ascii := "010"%char.
Definition SP : ascii := " "%char.
Definition DQ : ascii := "034"%char.

(** The bytes of a string literal of the C source. *)
Definition lit (s : string) : list ascii := list_ascii_of_string s.

(** The string a [char*] denotes: the bytes before the first NUL. *)
Fixpoint cstr (p : list ascii) : list ascii :=
  match p with
  | [] => []
  | c :: p' => if decide (c = NUL) then [] else c :: cstr p'
  end.

Fixpoint strlen (p : list ascii) : nat :=
  match p with
  | [] => 0
  | c :: p' => if decide (c = NUL) then 0 else S (strlen p')
  end.

(** [*p]: the byte under the pointer, NUL at the end of the string. *)
Definition deref (p : list ascii) : ascii := hd NUL p.

Definition byte_val (c : ascii) : Z := Z.of_N (N_of_ascii c).

(** [strncmp a b n]: zero when the first [n] bytes agree (or both strings end
    before that), otherwise the difference of the first bytes that differ. *)
Fixpoint strncmp (a b : list ascii) (n : nat) : Z :=
  match n with
  | 0 => 0%Z
  | S n' =>
      if decide (deref a = deref b) then
        if decide (deref a = NUL) then 0%Z
        else strncmp (tl a) (tl b) n'
      else (byte_val (deref a) - byte_val (deref b))%Z
  end.

(** [strstr hay needle]: a pointer to the first occurrence of [needle] in
    [hay], or NULL ([None]). *)
Fixpoint strstr (hay needle : list ascii) : option (list ascii) :=
  if decide (strncmp hay needle (strlen needle) = 0%Z) then Some hay
  else
    match hay with
    | [] => None
    | c :: hay' => if decide (c = NUL) then None else strstr hay' needle
    end.

(** [strcspn s reject]: the length of the longest prefix of [s] with no byte
    of [reject]. *)
Fixpoint strcspn (s reject : list ascii) : nat :=
  match s with
  | [] => 0
  | c :: s' =>
      if decide (c = NUL) then 0
      else if decide (c ∈ cstr reject) then 0
      else S (strcspn s' reject)
  end.

(** [strncpy dst src n]: the contents of [dst] afterwards.  Exactly [n] bytes
    are written: the bytes of [src] up to its end, then NULs. *)
Fixpoint strncpy (dst src : list ascii) (n : nat) : list ascii :=
  match n, dst with
  | 0, _ => dst
  | S _, [] => []
  | S n', _ :: dst' =>
      match src with
      | c :: src' =>
          if decide (c = NUL) then NUL :: strncpy dst' [] n'
          else c :: strncpy dst' src' n'
      | [] => NUL :: strncpy dst' [] n'
      end
  end.

(** [strdup p]: a fresh copy of the string at [p]. *)
Definition strdup (p : list ascii) : list ascii := cstr p.

(** A [char a[n]] initialised from a string literal: the literal's bytes,
    the remaining elements zero. *)
Definition char_array (n : nat) (s : list ascii) : list ascii :=
  take n (s ++ replicate n NUL).

(** [%d] of a non-negative [int]. *)
Definition decimal (i : nat) : list ascii :=
  lit (NilZero.string_of_uint (Nat.to_uint i)).

End CString.
Import CString.

(** ** The lexer ([src/lexer.c]) *)

Inductive TokenType : Set :=
  | TOKEN_PRINT
  | TOKEN_SEPARATOR
  | TOKEN_STRING
  | TOKEN_UNKNOWN.

#[global] Instance TokenType_eq_dec : EqDecision TokenType.
Proof. solve_decision. Defined.

Record Token : Set := mkToken { type : TokenType; value : list ascii }.

#[global] Instance Token_eq_dec : EqDecision Token.
Proof. solve_decision. Defined.

(** [sizeof(stringToken.value)] *)
Definition VALUE_SIZE : nat := 512.

(** The keyword, UTF-8 bytes E0 A8 B2 E0 A8 BF E0 A8 96 E0 A9 8B. *)
Definition keyword : list ascii := lit "ਲਿਖੋ".
(** The separator, UTF-8 bytes E2 98 AC. *)
Definition separator : list ascii := lit "☬".

(** [while ( *str == ' ') str++;] *)
Fixpoint skip_spaces (str : list ascii) : list ascii :=
  match str with
  | [] => []
  | c :: str' => if decide (c = SP) then skip_spaces str' else str
  end.

Definition tokenize (line : list ascii) : list Token :=
  let tokens : list Token := [] in
  if decide (strncmp line keyword (strlen keyword) = 0%Z) then
    let tokens := tokens ++ [mkToken TOKEN_PRINT (char_array VALUE_SIZE keyword)] in
    match strstr line separator with
    | Some sep =>
        let tokens :=
          tokens ++ [mkToken TOKEN_SEPARATOR (char_array VALUE_SIZE separator)] in
        let str := drop (strlen separator) sep in
        let str := skip_spaces str in
        let stringToken := mkToken TOKEN_STRING (char_array VALUE_SIZE (lit "")) in
        let v := strncpy (value stringToken) str (VALUE_SIZE - 1) in
        let v := <[strcspn v [LF] := NUL]> v in
        tokens ++ [mkToken (type stringToken) v]
    | None => tokens
    end
  else
    tokens ++ [mkToken TOKEN_UNKNOWN (char_array VALUE_SIZE (lit "???"))].

(** The text a token carries: the string held in its [value] array. *)
Definition text (t : Token) : list ascii := cstr (value t).

(** ** The parser ([src/parser.c]) *)

Inductive StatementType : Set :=
  | STMT_PRINT.

#[global] Instance StatementType_eq_dec : EqDecision StatementType.
Proof. solve_decision. Defined.

(** The members [type] and [value] of the C struct; prefixed, as [Token] has
    members of the same names. *)
Record Statement : Set :=
  mkStatement { stmt_type : StatementType; stmt_value : list ascii }.

#[global] Instance Statement_eq_dec : EqDecision Statement.
Proof. solve_decision. Defined.

Definition Program : Set := list Statement.

(** [prog.count] *)
Definition count (prog : Program) : nat := length prog.

#[global] Instance Token_inhabited : Inhabited Token :=
  populate (mkToken TOKEN_UNKNOWN []).
#[global] Instance Statement_inhabited : Inhabited Statement :=
  populate (mkStatement STMT_PRINT []).

(** How a call ends: it returns a value, or the process exits with a status
    after writing to [stderr]. *)
Inductive Outcome (A : Type) : Type :=
  | Returned (a : A)
  | Exited (status : Z) (stderr : list ascii).
Arguments Returned {A} a.
Arguments Exited {A} status stderr.

(** The pieces of a [printf] format with their arguments. *)
Inductive Piece : Set :=
  | Txt (s : list ascii)
  | Pd (i : nat)
  | Ps (p : list ascii).

Definition render (x : Piece) : list ascii :=
  match x with
  | Txt s => s
  | Pd i => decimal i
  | Ps p => cstr p
  end.

Definition fprintf (f : list ascii) (fmt : list Piece) : list ascii :=
  f ++ concat (map render fmt).

(** [fprintf(stderr, "Syntax error at token %d: '%s'\n", i, v)] on an empty
    [stderr]. *)
Definition syntax_error_message (i : nat) (v : list ascii) : list ascii :=
  fprintf [] [Txt (lit "Syntax error at token "); Pd i; Txt (lit ": '");
              Ps v; Txt (lit "'" ++ [LF])].

(** The loop of [parse_tokens], from the state [(i, prog)].  Each round
    either stops or moves [i] forward, so [fuel] bounds the rounds; [None]
    is a run that needs more.  The cursor is returned next to the program. *)
Fixpoint parse_loop (fuel : nat) (tokens : list Token) (token_count : nat)
    (i : nat) (prog : Program) : option (Outcome (nat * Program)) :=
  match fuel with
  | 0 => None
  | S fuel' =>
      if decide (i < token_count) then
        if decide (i + 2 < token_count ∧
                   type (tokens !!! i) = TOKEN_PRINT ∧
                   type (tokens !!! (i + 1)) = TOKEN_SEPARATOR ∧
                   type (tokens !!! (i + 2)) = TOKEN_STRING)
        then
          let stmt := mkStatement STMT_PRINT (strdup (value (tokens !!! (i + 2)))) in
          parse_loop fuel' tokens token_count (i + 3) (prog ++ [stmt])
        else
          Some (Exited 1 (syntax_error_message i (value (tokens !!! i))))
      else Some (Returned (i, prog))
  end.

Definition parse_tokens (tokens : list Token) (token_count : nat)
    : option (Outcome Program) :=
  match parse_loop (S token_count) tokens token_count 0 [] with
  | Some (Returned (_, prog)) => Some (Returned prog)
  | Some (Exited status err) => Some (Exited status err)
  | None => None
  end.

(** The parser on a token sequence, as [main] calls it: with the number of
    tokens the lexer wrote. *)
Definition parse (tokens : list Token) : option (Outcome Program) :=
  parse_tokens tokens (length tokens).

(** ** The code generator ([src/codegen.c]) *)

(** [for (int i = start; i < start + n; i++) body], on the state [s]. *)
Fixpoint for_loop {St : Type} (n start : nat) (body : nat -> St -> St) (s : St) : St :=
  match n with
  | 0 => s
  | S n' => for_loop n' (S start) body (body start s)
  end.

(** [fopen_ok] tells whether [fopen(filename, "w")] gave a stream, which is
    then empty; [os_error] is the text [perror] prints for [errno].  On
    return the result is what the file holds. *)
Definition generate_code (program : Program) (fopen_ok : bool)
    (os_error : list ascii) : Outcome (list ascii) :=
  if negb fopen_ok then
    Exited 1 (fprintf [] [Txt (lit "Cannot open output file: "); Txt os_error;
                          Txt [LF]])
  else
    let f : list ascii := [] in
    let f := fprintf f [Txt (lit "section .data" ++ [LF])] in
    let f :=
      for_loop (count program) 0 (fun i f =>
        if decide (stmt_type (program !!! i) = STMT_PRINT) then
          let f := fprintf f [Txt (lit "msg"); Pd i; Txt (lit " db " ++ [DQ]);
                              Ps (stmt_value (program !!! i));
                              Txt ([DQ] ++ lit ", 0xA" ++ [LF])] in
          fprintf f [Txt (lit "len"); Pd i; Txt (lit " equ $ - msg"); Pd i;
                     Txt [LF]]
        else f) f in
    let f := fprintf f [Txt ([LF] ++ lit "section .text" ++ [LF])] in
    let f := fprintf f [Txt (lit "global _start" ++ [LF])] in
    let f := fprintf f [Txt (lit "_start:" ++ [LF])] in
    let f :=
      for_loop (count program) 0 (fun i f =>
        if decide (stmt_type (program !!! i) = STMT_PRINT) then
          let f := fprintf f [Txt (lit "    mov rax, 1" ++ [LF])] in
          let f := fprintf f [Txt (lit "    mov rdi, 1" ++ [LF])] in
          let f := fprintf f [Txt (lit "    mov rsi, msg"); Pd i; Txt [LF]] in
          let f := fprintf f [Txt (lit "    mov rdx, len"); Pd i; Txt [LF]] in
          fprintf f [Txt (lit "    syscall" ++ [LF; LF])]
        else f) f in
    let f := fprintf f [Txt (lit "    mov rax, 60" ++ [LF])] in
    let f := fprintf f [Txt (lit "    xor rdi, rdi" ++ [LF])] in
    let f := fprintf f [Txt (lit "    syscall" ++ [LF])] in
    Returned f.

(** ** The driver ([src/main.c]) *)

(** [fgets(buf, size, stream)] reads at most [size - 1] bytes and stops after
    a line terminator; [fgets_read n] is what it reads with room for [n]. *)
Fixpoint fgets_read (n : nat) (stream : list ascii) : list ascii :=
  match n, stream with
  | 0, _ => []
  | S _, [] => []
  | S n', c :: stream' =>
      if decide (c = LF) then [c] else c :: fgets_read n' stream'
  end.

(** The bytes [fgets] stores: what it read and the terminating NUL.  At the
    end of the file it stores nothing and returns NULL ([None]). *)
Definition fgets (size : nat) (stream : list ascii) : option (list ascii) :=
  match stream with
  | [] => None
  | _ :: _ => Some (fgets_read (size - 1) stream ++ [NUL])
  end.

(** The enumerators of [TokenType] as [%d] prints them. *)
Definition TokenType_int (t : TokenType) : nat :=
  match t with
  | TOKEN_PRINT => 0
  | TOKEN_SEPARATOR => 1
  | TOKEN_STRING => 2
  | TOKEN_UNKNOWN => 3
  end.

(** What a run of the program leaves behind: its exit status, what it wrote
    to [stdout] and [stderr], and the contents of [out.s] when the run
    created it. *)
Record Run : Type := mkRun {
  exit_status : Z;
  stdout : list ascii;
  stderr : list ascii;
  out_s : option (list ascii)
}.

(** [main].  [argv] holds the [argc] arguments; [fopen_r] is the contents of
    the file [argv[1]] when [fopen(argv[1], "r")] opens it; [r_error] and
    [w_error] are the texts [perror] prints for the two [fopen] calls.  The
    result is [None] where the source leaves the run undetermined: [argv[0]]
    printed with [argc = 0], and [line] used after [fgets] stored nothing in
    it.  [exit] inside [parse_tokens] and [generate_code] flushes [stdout]. *)
Definition main (argv : list (list ascii)) (fopen_r : option (list ascii))
    (r_error : list ascii) (fopen_w_ok : bool) (w_error : list ascii)
    : option Run :=
  let argc := length argv in
  if decide (argc < 2) then
    match argv !! 0 with
    | Some argv0 =>
        Some (mkRun 1
                (fprintf [] [Txt (lit "Usage: "); Ps argv0;
                             Txt (lit " <file.veerji>" ++ [LF])])
                [] None)
    | None => None
    end
  else
    match fopen_r with
    | None =>
        Some (mkRun 1 []
                (fprintf [] [Txt (lit "File open failed: "); Txt r_error; Txt [LF]])
                None)
    | Some f =>
        match fgets 1024 f with
        | None => None
        | Some line =>
            let tokens := tokenize line in
            let token_count := length tokens in
            let out := fprintf [] [Txt (lit "=== TOKENS ===" ++ [LF])] in
            let out :=
              for_loop token_count 0 (fun i out =>
                fprintf out [Txt (lit "Token "); Pd i; Txt (lit ": Type=");
                             Pd (TokenType_int (type (tokens !!! i)));
                             Txt (lit ", Value="); Ps (value (tokens !!! i));
                             Txt [LF]]) out in
            match parse_tokens tokens token_count with
            | None => None
            | Some (Exited status err) => Some (mkRun status out err None)
            | Some (Returned program) =>
                let out := fprintf out [Txt (lit "=== PARSED ===" ++ [LF])] in
                let out :=
                  for_loop (count program) 0 (fun i out =>
                    fprintf out [Txt (lit "Statement "); Pd i;
                                 Txt (lit ": PRINT " ++ [DQ]);
                                 Ps (stmt_value (program !!! i));
                                 Txt ([DQ] ++ [LF])]) out in
                match generate_code program fopen_w_ok w_error with
                | Exited status err => Some (mkRun status out err None)
                | Returned file =>
                    let out :=
                      fprintf out [Txt (lit "Assembly written to out.s" ++ [LF])] in
                    Some (mkRun 0 out [] (Some file))
                end
            end
        end
    end.

(** ** The vocabulary of the specification *)

(** A line of output: its text and the line terminator. *)
Definition line_of (s : list ascii) : list ascii := s ++ [LF].

(** [needle] occurs somewhere in the string [s]. *)
Definition occurs_in (needle s : list ascii) : Prop :=
  ∃ a b, s = a ++ needle ++ b.

(** [s] splits around its first occurrence of [needle]. *)
Definition first_occurrence (needle s pre rest : list ascii) : Prop :=
  s = pre ++ needle ++ rest ∧
  ∀ a b, s = a ++ needle ++ b → length pre ≤ length a.

(** The text up to, and without, the first line terminator. *)
Fixpoint up_to_LF (s : list ascii) : list ascii :=
  match s with
  | [] => []
  | c :: s' => if decide (c = LF) then [] else c :: up_to_LF s'
  end.

(** A single line of text: a line terminator can only be its last byte. *)
Definition single_line (s : list ascii) : Prop :=
  ∀ a b, s = a ++ LF :: b → b = [].

(** The production [Statement := Keyword-Print Separator StringLiteral]
    matches the three tokens at position [i]. *)
Definition production_at (tokens : list Token) (i : nat) : Prop :=
  ∃ t0 t1 t2,
    tokens !! i = Some t0 ∧ tokens !! (i + 1) = Some t1 ∧
    tokens !! (i + 2) = Some t2 ∧
    type t0 = TOKEN_PRINT ∧ type t1 = TOKEN_SEPARATOR ∧ type t2 = TOKEN_STRING.

(** Statement [s], number [j] of a program, is the Print statement of the
    production over the tokens [3j], [3j+1], [3j+2]. *)
Definition print_of_production (tokens : list Token) (j : nat) (s : Statement)
    : Prop :=
  stmt_type s = STMT_PRINT ∧
  ∃ t0 t1 t2,
    tokens !! (3 * j) = Some t0 ∧ tokens !! (3 * j + 1) = Some t1 ∧
    tokens !! (3 * j + 2) = Some t2 ∧
    type t0 = TOKEN_PRINT ∧ type t1 = TOKEN_SEPARATOR ∧ type t2 = TOKEN_STRING ∧
    stmt_value s = text t2.

(** The statement the loop of the parser appends for production number [j]. *)
Definition statement_of (tokens : list Token) (j : nat) : Statement :=
  mkStatement STMT_PRINT (text (tokens !!! (3 * j + 2))).

(** What holds of the state [(i, prog)] of the parser's loop at each round. *)
Definition parse_inv (tokens : list Token) (i : nat) (prog : Program) : Prop :=
  i = 3 * length prog ∧ i ≤ length tokens ∧
  ∀ j s, prog !! j = Some s → print_of_production tokens j s.

(** The message of a syntax error at position [i], on a token with text [txt]. *)
Definition syntax_error_text (i : nat) (txt : list ascii) : list ascii :=
  line_of (lit "Syntax error at token " ++ decimal i ++ lit ": '" ++ txt ++ lit "'").

(** The tokens the lexer writes for the keyword and for the separator. *)
Definition keyword_token : Token :=
  mkToken TOKEN_PRINT (char_array VALUE_SIZE keyword).
Definition separator_token : Token :=
  mkToken TOKEN_SEPARATOR (char_array VALUE_SIZE separator).
Definition unknown_token : Token :=
  mkToken TOKEN_UNKNOWN (char_array VALUE_SIZE (lit "???")).

(** The emitted artifact, line by line: the two data lines of statement
    [i], the five lines of its write syscall, the three lines of the exit
    syscall, and the two sections built from them. *)
Definition data_lines (i : nat) (s : Statement) : list ascii :=
  line_of (lit "msg" ++ decimal i ++ lit " db " ++ [DQ] ++ cstr (stmt_value s) ++
        [DQ] ++ lit ", 0xA") ++
  line_of (lit "len" ++ decimal i ++ lit " equ $ - msg" ++ decimal i).

Definition syscall_block (i : nat) (s : Statement) : list ascii :=
  line_of (lit "    mov rax, 1") ++
  line_of (lit "    mov rdi, 1") ++
  line_of (lit "    mov rsi, msg" ++ decimal i) ++
  line_of (lit "    mov rdx, len" ++ decimal i) ++
  line_of (lit "    syscall").

Definition exit_block : list ascii :=
  line_of (lit "    mov rax, 60") ++
  line_of (lit "    xor rdi, rdi") ++
  line_of (lit "    syscall").

Definition data_section (program : Program) : list ascii :=
  line_of (lit "section .data") ++ concat (imap data_lines program).

Definition text_section (program : Program) : list ascii :=
  line_of (lit "section .text") ++
  line_of (lit "global _start") ++
  line_of (lit "_start:") ++
  concat (imap (λ i s, syscall_block i s ++ line_of []) program) ++
  exit_block.

Definition expected_output (program : Program) : list ascii :=
  data_section program ++ line_of [] ++ text_section program.

(** The [value] array of the StringLiteral token for the text at [str]. *)
Definition literal_array (str : list ascii) : list ascii :=
  let v := strncpy (char_array VALUE_SIZE (lit "")) str (VALUE_SIZE - 1) in
  <[strcspn v [LF] := NUL]> v.

(** The text a StringLiteral token holds for the text [rest] that follows
    the separator. *)
Definition literal_text (rest : list ascii) : list ascii :=
  up_to_LF (take 511 (skip_spaces rest)).

(** What [main] prints on [stdout] for the tokens and for the statements. *)
Definition token_line (i : nat) (t : Token) : list ascii :=
  line_of (lit "Token " ++ decimal i ++ lit ": Type=" ++
           decimal (TokenType_int (type t)) ++ lit ", Value=" ++ text t).

Definition tokens_dump (tokens : list Token) : list ascii :=
  line_of (lit "=== TOKENS ===") ++ concat (imap token_line tokens).

Definition statement_line (i : nat) (s : Statement) : list ascii :=
  line_of (lit "Statement " ++ decimal i ++ lit ": PRINT " ++ [DQ] ++
           cstr (stmt_value s) ++ [DQ]).

Definition parsed_dump (program : Program) : list ascii :=
  line_of (lit "=== PARSED ===") ++ concat (imap statement_line program).

(** ** Facts about the C string functions *)

Section CStringFacts.

Implicit Types (p s t : list ascii) (c : ascii).

Lemma byte_val_inj c1 c2 : (byte_val c1 - byte_val c2 = 0)%Z → c1 = c2.
Proof.
  unfold byte_val. intros H.
  assert (E : N_of_ascii c1 = N_of_ascii c2) by lia.
  rewrite <- (ascii_N_embedding c1), <- (ascii_N_embedding c2).
  by rewrite E.
Qed.

Lemma cstr_no_NUL p : NUL ∉ cstr p.
Proof.
  induction p as [|c p IH]; simpl; [apply not_elem_of_nil|].
  case_decide; [apply not_elem_of_nil|].
  apply not_elem_of_cons. split; [congruence | done].
Qed.

Lemma cstr_id s : NUL ∉ s → cstr s = s.
Proof.
  induction s as [|c s IH]; simpl; [done|].
  intros [Hc Hs]%not_elem_of_cons.
  case_decide; [congruence|]. by rewrite IH.
Qed.

Lemma cstr_app s p : NUL ∉ s → cstr (s ++ p) = s ++ cstr p.
Proof.
  induction s as [|c s IH]; simpl; [done|].
  intros [Hc Hs]%not_elem_of_cons.
  case_decide; [congruence|]. by rewrite IH.
Qed.

(** A string that starts with NUL-free bytes [s] lives in memory that starts
    with [s]. *)
Lemma cstr_prefix_inv s p t :
  NUL ∉ s → cstr p = s ++ t → ∃ p', p = s ++ p' ∧ cstr p' = t.
Proof.
  revert p. induction s as [|c s IH]; intros p Hs E; simpl in *.
  - by exists p.
  - apply not_elem_of_cons in Hs as [Hc Hs].
    destruct p as [|c' p]; simpl in E; [done|].
    case_decide; [done|]. injection E as -> E.
    destruct (IH p Hs E) as (p' & -> & E'). by exists p'.
Qed.

Lemma strlen_length p : strlen p = length (cstr p).
Proof.
  induction p as [|c p IH]; simpl; [done|]. case_decide; simpl; congruence.
Qed.

Lemma strlen_id s : NUL ∉ s → strlen s = length s.
Proof. intros Hs. by rewrite strlen_length, cstr_id. Qed.

(** [strncmp] over the length of a NUL-free string tests for a prefix. *)
Lemma strncmp_prefix s p :
  NUL ∉ s → strncmp p s (length s) = 0%Z ↔ ∃ p', p = s ++ p'.
Proof.
  revert p. induction s as [|c s IH]; intros p Hs; simpl.
  - split; [by exists p | done].
  - apply not_elem_of_cons in Hs as [Hc Hs].
    destruct p as [|c' p]; unfold deref; simpl.
    + case_decide as E; [congruence|]. split.
      * intros H%byte_val_inj. congruence.
      * intros [p' ?]. done.
    + case_decide as E.
      * subst c'. case_decide; [congruence|].
        rewrite IH by done. split.
        -- intros [p' ->]. by exists p'.
        -- intros [p' E']. simplify_eq. by exists p'.
      * split.
        -- intros H%byte_val_inj. congruence.
        -- intros [p' E']. simplify_eq.
Qed.

Lemma strncmp_strlen_prefix s p :
  NUL ∉ s → strncmp p s (strlen s) = 0%Z ↔ ∃ p', p = s ++ p'.
Proof. intros Hs. rewrite strlen_id by done. by apply strncmp_prefix. Qed.

(** The prefix test seen on the strings instead of the memory. *)
Lemma prefix_of_cstr s p :
  NUL ∉ s → s `prefix_of` cstr p ↔ ∃ p', p = s ++ p'.
Proof.
  intros Hs. split.
  - intros [t E]. destruct (cstr_prefix_inv s p t Hs E) as (p' & -> & _).
    by exists p'.
  - intros [p' ->]. rewrite cstr_app by done. by exists (cstr p').
Qed.

Lemma strstr_unfold hay needle :
  strstr hay needle =
    if decide (strncmp hay needle (strlen needle) = 0%Z) then Some hay
    else match hay with
         | [] => None
         | c :: hay' => if decide (c = NUL) then None else strstr hay' needle
         end.
Proof. by destruct hay. Qed.

(** [strstr] finds the first occurrence, and only misses when there is
    none. *)
Lemma strstr_spec needle hay :
  NUL ∉ needle →
  match strstr hay needle with
  | Some p =>
      ∃ pre rest, hay = pre ++ p ∧ p = needle ++ rest ∧ (NUL ∉ pre) ∧
        first_occurrence needle (cstr hay) pre (cstr rest)
  | None => ¬ occurs_in needle (cstr hay)
  end.
Proof.
  intros Hn. induction hay as [|c hay IH]; rewrite strstr_unfold.
  - case_decide as E.
    + apply strncmp_strlen_prefix in E as [p' E]; [|done].
      symmetry in E. apply app_eq_nil in E as [-> ->].
      exists [], []. repeat split; [apply not_elem_of_nil|]. intros; simpl; lia.
    + intros (a & b & E'). simpl in E'. symmetry in E'.
      apply app_eq_nil in E' as [_ [-> _]%app_eq_nil].
      by apply E.
  - case_decide as E.
    + apply strncmp_strlen_prefix in E as [p' E]; [|done].
      exists [], p'. rewrite E. repeat split; [apply not_elem_of_nil| |].
      * by rewrite cstr_app.
      * intros; simpl; lia.
    + assert (Hnp : ∀ b, cstr (c :: hay) ≠ needle ++ b).
      { intros b Eb. apply E, strncmp_strlen_prefix; [done|].
        destruct (cstr_prefix_inv _ _ _ Hn Eb) as (p' & ? & _). by exists p'. }
      case_decide as Ec.
      * intros (a & b & E'). subst c. simpl in E'.
        symmetry in E'. apply app_eq_nil in E' as [-> E'].
        apply (Hnp b). simpl. by rewrite E'.
      * destruct (strstr hay needle) as [p|].
        -- destruct IH as (pre & rest & -> & -> & Hpre & Hfirst & Hmin).
           exists (c :: pre), rest. repeat split; [| |].
           ++ apply not_elem_of_cons. split; [congruence|done].
           ++ simpl. case_decide; [done|]. by rewrite Hfirst.
           ++ intros a b E'. destruct a as [|c' a].
              ** by destruct (Hnp b).
              ** simpl in E'. case_decide; [done|]. injection E' as -> E'.
                 simpl. apply Hmin in E'. lia.
        -- intros (a & b & E'). destruct a as [|c' a].
           ++ by destruct (Hnp b).
           ++ simpl in E'. case_decide; [done|]. injection E' as -> E'.
              apply IH. by exists a, b.
Qed.

Lemma cstr_skip_spaces p : cstr (skip_spaces p) = skip_spaces (cstr p).
Proof.
  induction p as [|c p IH]; simpl; [done|].
  destruct (decide (c = SP)) as [Hsp|Hsp]; destruct (decide (c = NUL)) as [Hn|Hn];
    simpl; repeat case_decide; subst; try done.
Qed.

Lemma skip_spaces_replicate n s : skip_spaces (replicate n SP ++ s) = skip_spaces s.
Proof. induction n as [|n IH]; simpl; done. Qed.

Lemma length_strncpy dst src n : length (strncpy dst src n) = length dst.
Proof.
  revert dst src. induction n as [|n IH]; intros [|d dst] src; simpl; try done.
  destruct src as [|c src]; [|case_decide]; simpl; by rewrite IH.
Qed.

(** Copying at most [n] bytes into a longer zeroed array leaves a string of
    the first [n] bytes of the source. *)
Lemma cstr_strncpy_zeroed n m src :
  n < m → cstr (strncpy (replicate m NUL) src n) = take n (cstr src).
Proof.
  revert m src. induction n as [|n IH]; intros m src Hm.
  - destruct m; [lia|]. simpl. by rewrite take_0.
  - destruct m as [|m]; [lia|]. simpl.
    destruct src as [|c src]; simpl; [done|].
    case_decide; simpl; [done|].
    case_decide; [done|]. rewrite IH by lia. done.
Qed.

Lemma char_array_nil n : char_array n [] = replicate n NUL.
Proof.
  unfold char_array. simpl. rewrite take_ge; [done|]. by rewrite length_replicate.
Qed.

(** Writing a NUL at the index [strcspn] gives cuts the string at its first
    line terminator. *)
Lemma cstr_cut_at_LF v : cstr (<[strcspn v [LF] := NUL]> v) = up_to_LF (cstr v).
Proof.
  induction v as [|c v IH]; simpl; [done|].
  destruct (decide (c = NUL)) as [->|Hn]; simpl; [done|].
  destruct (decide (c = LF)) as [->|Hl]; simpl; [done|].
  case_decide as E.
  - apply list_elem_of_singleton in E. done.
  - simpl. case_decide; [done|]. by rewrite IH.
Qed.

Lemma up_to_LF_no_LF s : LF ∉ up_to_LF s.
Proof.
  induction s as [|c s IH]; simpl; [apply not_elem_of_nil|].
  case_decide; [apply not_elem_of_nil|].
  apply not_elem_of_cons. split; [congruence|done].
Qed.

Lemma up_to_LF_id s : LF ∉ s → up_to_LF s = s.
Proof.
  induction s as [|c s IH]; simpl; [done|].
  intros [Hc Hs]%not_elem_of_cons. case_decide; [congruence|]. by rewrite IH.
Qed.

Lemma up_to_LF_app s t : LF ∉ s → up_to_LF (s ++ LF :: t) = s.
Proof.
  induction s as [|c s IH]; simpl; [done|].
  intros [Hc Hs]%not_elem_of_cons. case_decide; [congruence|]. by rewrite IH.
Qed.

Lemma up_to_LF_prefix s : up_to_LF s `prefix_of` s.
Proof.
  induction s as [|c s IH]; simpl; [done|].
  case_decide; [apply prefix_nil|]. by apply prefix_cons.
Qed.

Lemma length_up_to_LF s : length (up_to_LF s) ≤ length s.
Proof. apply prefix_length, up_to_LF_prefix. Qed.

(** *** Occurrences and single lines *)

Lemma first_occurrence_occurs needle s pre rest :
  first_occurrence needle s pre rest → occurs_in needle s.
Proof. intros [E _]. by exists pre, rest. Qed.

Lemma occurs_in_first_byte c needle s : occurs_in (c :: needle) s → c ∈ s.
Proof.
  intros (a & b & ->). apply elem_of_app. right. apply elem_of_cons. by left.
Qed.

Lemma first_occurrence_unique needle s pre1 rest1 pre2 rest2 :
  first_occurrence needle s pre1 rest1 → first_occurrence needle s pre2 rest2 →
  pre1 = pre2 ∧ rest1 = rest2.
Proof.
  intros [E1 M1] [E2 M2].
  assert (L : length pre1 = length pre2).
  { apply M1 in E2 as ?. apply M2 in E1 as ?. lia. }
  rewrite E1 in E2. apply app_inj_1 in E2 as [-> E2]; [|done].
  by apply app_inv_head in E2.
Qed.

(** An occurrence is the first one when the bytes before it lack the
    needle's first byte. *)
Lemma first_occurrence_intro c needle pre rest :
  c ∉ pre →
  first_occurrence (c :: needle) (pre ++ (c :: needle) ++ rest) pre rest.
Proof.
  intros Hc. split; [done|]. intros a b E.
  destruct (decide (length pre ≤ length a)) as [|Hlt]; [done|].
  exfalso. apply Hc.
  assert (L : (pre ++ (c :: needle) ++ rest) !! length a = Some c).
  { rewrite E. simpl. apply list_lookup_middle. done. }
  rewrite lookup_app_l in L by lia.
  apply list_elem_of_lookup. by exists (length a).
Qed.

Lemma single_line_body body : LF ∉ body → single_line body.
Proof.
  intros Hb a b ->. exfalso. apply Hb.
  apply elem_of_app. right. apply elem_of_cons. by left.
Qed.

Lemma single_line_terminated body : LF ∉ body → single_line (body ++ [LF]).
Proof.
  intros Hb a b E. destruct b as [|x b _] using rev_ind; [done|].
  exfalso. apply Hb.
  change (a ++ LF :: b ++ [x]) with (a ++ (LF :: b) ++ [x]) in E.
  rewrite app_assoc in E. apply app_inj_tail in E as [-> _].
  apply elem_of_app. right. apply elem_of_cons. by left.
Qed.

Lemma single_line_suffix p s : single_line (p ++ s) → single_line s.
Proof.
  intros H a b ->. apply (H (p ++ a) b). by rewrite <- app_assoc.
Qed.

(** In a single line longer than [n] bytes the first [n] bytes hold no line
    terminator. *)
Lemma single_line_take n s : single_line s → n < length s → LF ∉ take n s.
Proof.
  intros Hs Hn [i Hi]%list_elem_of_lookup.
  apply lookup_take_Some in Hi as [Hi Hlt].
  pose proof (take_drop_middle s i LF Hi) as E. symmetry in E.
  apply Hs in E.
  assert (L : length (drop (S i) s) = 0) by (by rewrite E).
  rewrite length_drop in L. lia.
Qed.

End CStringFacts.

(** ** The lexer *)

Section LexerFacts.

Lemma keyword_bytes :
  keyword = ["224"; "168"; "178"; "224"; "168"; "191";
             "224"; "168"; "150"; "224"; "169"; "139"]%char.
Proof. reflexivity. Qed.

Lemma separator_bytes : separator = ["226"; "152"; "172"]%char.
Proof. reflexivity. Qed.

Lemma keyword_no_NUL : NUL ∉ keyword.
Proof. rewrite keyword_bytes. compute_done. Qed.

Lemma separator_no_NUL : NUL ∉ separator.
Proof. rewrite separator_bytes. compute_done. Qed.

Lemma keyword_token_text : text keyword_token = keyword.
Proof. reflexivity. Qed.

Lemma separator_token_text : text separator_token = separator.
Proof. reflexivity. Qed.

Lemma unknown_token_text : text unknown_token = lit "???".
Proof. reflexivity. Qed.

(** What [tokenize] returns, by the three ways through its branches. *)
Lemma tokenize_cases line :
  (¬ keyword `prefix_of` cstr line ∧ tokenize line = [unknown_token]) ∨
  (keyword `prefix_of` cstr line ∧ ¬ occurs_in separator (cstr line) ∧
   tokenize line = [keyword_token]) ∨
  (keyword `prefix_of` cstr line ∧
   ∃ pre rest v,
     first_occurrence separator (cstr line) pre rest ∧
     tokenize line = [keyword_token; separator_token; mkToken TOKEN_STRING v] ∧
     length v = VALUE_SIZE ∧
     cstr v = up_to_LF (take (VALUE_SIZE - 1) (skip_spaces rest))).
Proof.
  unfold tokenize. cbv zeta.
  destruct (decide (strncmp line keyword (strlen keyword) = 0%Z)) as [E|E].
  - apply strncmp_strlen_prefix in E; [|apply keyword_no_NUL].
    apply prefix_of_cstr in E; [|apply keyword_no_NUL].
    right. pose proof (strstr_spec separator line separator_no_NUL) as Hs.
    destruct (strstr line separator) as [p|].
    + right. split; [done|].
      destruct Hs as (pre & rest & -> & -> & Hpre & Hfirst).
      exists pre, (cstr rest). eexists. split; [done|]. split; [reflexivity|].
      rewrite strlen_id by apply separator_no_NUL. rewrite drop_app_length.
      cbn [value]. change (lit "") with (@nil ascii). rewrite char_array_nil.
      split.
      * by rewrite length_insert, length_strncpy, length_replicate.
      * rewrite cstr_cut_at_LF, cstr_strncpy_zeroed by (unfold VALUE_SIZE; lia).
        by rewrite cstr_skip_spaces.
    + left. done.
  - left. split; [|done]. intros H. apply E.
    apply strncmp_strlen_prefix; [apply keyword_no_NUL|].
    apply (prefix_of_cstr keyword line keyword_no_NUL). exact H.
Qed.

(** C5: [tokenize] returns between 0 and 3 tokens, in order: the three tokens
    Keyword-Print, Separator, StringLiteral when the line begins with the
    keyword and contains the separator; one Unknown token when the line does
    not begin with the keyword; only the Keyword-Print token when the keyword
    is there and the separator is not. *)
Theorem tokenize_token_sequence line :
  length (tokenize line) ≤ 3 ∧
  (keyword `prefix_of` cstr line → occurs_in separator (cstr line) →
   ∃ v, tokenize line = [keyword_token; separator_token; mkToken TOKEN_STRING v]) ∧
  (¬ keyword `prefix_of` cstr line →
   ∃ t, tokenize line = [t] ∧ type t = TOKEN_UNKNOWN) ∧
  (keyword `prefix_of` cstr line → ¬ occurs_in separator (cstr line) →
   tokenize line = [keyword_token]).
Proof.
  destruct (tokenize_cases line)
    as [[Hk E]|[(Hk & Hs & E)|(Hk & pre & rest & v & Hf & E & _)]];
    rewrite E; (split; [simpl; lia|]); repeat split; try done.
  - intros _. by exists unknown_token.
  - by exists v.
  - intros _ []. by eapply first_occurrence_occurs.
Qed.

Lemma tokenize_token_sequence_witness :
  (∃ v, tokenize (keyword ++ lit " " ++ separator ++ lit " Hi" ++ [LF]) =
        [keyword_token; separator_token; mkToken TOKEN_STRING v]) ∧
  (∃ t, tokenize (lit "foo bar" ++ [LF]) = [t] ∧ type t = TOKEN_UNKNOWN) ∧
  tokenize (keyword ++ lit " " ++ [LF]) = [keyword_token].
Proof.
  split; [|split].
  - apply (tokenize_token_sequence
             (keyword ++ lit " " ++ separator ++ lit " Hi" ++ [LF])).
    + compute_done.
    + exists (keyword ++ lit " "), (lit " Hi" ++ [LF]). reflexivity.
  - apply (tokenize_token_sequence (lit "foo bar" ++ [LF])). compute_done.
  - apply (tokenize_token_sequence (keyword ++ lit " " ++ [LF])).
    + compute_done.
    + rewrite separator_bytes. intros H%occurs_in_first_byte. revert H.
      compute_done.
Defined.

(** C6: a line that does not start with the keyword gives exactly one token,
    of kind Unknown, carrying the fixed placeholder [???], whatever the line
    holds. *)
Theorem tokenize_unknown line :
  ¬ keyword `prefix_of` cstr line →
  tokenize line = [unknown_token] ∧
  type unknown_token = TOKEN_UNKNOWN ∧ text unknown_token = lit "???".
Proof.
  intros Hk.
  destruct (tokenize_cases line) as [[_ E]|[(Hk' & _)|(Hk' & _)]]; done.
Qed.

Lemma tokenize_unknown_witness :
  ¬ keyword `prefix_of` cstr (lit "foo bar" ++ [LF]) ∧
  tokenize (lit "foo bar" ++ [LF]) = [unknown_token] ∧
  type unknown_token = TOKEN_UNKNOWN ∧ text unknown_token = lit "???".
Proof.
  assert (H : ¬ keyword `prefix_of` cstr (lit "foo bar" ++ [LF])) by compute_done.
  split; [exact H|]. exact (tokenize_unknown _ H).
Defined.

(** C7: the text of a StringLiteral token that [tokenize] produces holds no
    line terminator. *)
Theorem string_token_no_line_terminator line tok :
  tok ∈ tokenize line → type tok = TOKEN_STRING → LF ∉ text tok.
Proof.
  intros Hin Hty.
  destruct (tokenize_cases line)
    as [[_ E]|[(_ & _ & E)|(_ & pre & rest & v & _ & E & _ & Hv)]];
    rewrite E in Hin.
  - apply list_elem_of_singleton in Hin as ->. done.
  - apply list_elem_of_singleton in Hin as ->. done.
  - rewrite !elem_of_cons, elem_of_nil in Hin.
    destruct Hin as [->|[->|[->|[]]]]; try done.
    unfold text. cbn [value]. rewrite Hv. apply up_to_LF_no_LF.
Qed.

Lemma string_token_no_line_terminator_witness :
  let line := keyword ++ lit " " ++ separator ++ lit " Hi" ++ [LF] in
  let tok := mkToken TOKEN_STRING (char_array VALUE_SIZE (lit "Hi")) in
  tok ∈ tokenize line ∧ type tok = TOKEN_STRING ∧ LF ∉ text tok.
Proof.
  intros line tok.
  assert (Hin : tok ∈ tokenize line) by compute_done.
  assert (Hty : type tok = TOKEN_STRING) by reflexivity.
  split; [exact Hin|]. split; [exact Hty|].
  exact (string_token_no_line_terminator line tok Hin Hty).
Defined.

(** C8: [tokenize] returns exactly 1 or exactly 3 tokens, never 0 and never
    2; whenever the separator is found after the keyword, the Separator token
    and a StringLiteral token (its text may be empty) are emitted together. *)
Theorem tokenize_one_or_three line :
  (length (tokenize line) = 1 ∨ length (tokenize line) = 3) ∧
  (TOKEN_SEPARATOR ∈ type <$> tokenize line ↔
   TOKEN_STRING ∈ type <$> tokenize line) ∧
  (keyword `prefix_of` cstr line → occurs_in separator (cstr line) →
   ∃ v, tokenize line = [keyword_token; separator_token; mkToken TOKEN_STRING v]).
Proof.
  destruct (tokenize_cases line)
    as [[Hk E]|[(Hk & Hs & E)|(Hk & pre & rest & v & Hf & E & _)]];
    rewrite E; (split; [simpl; auto|]);
    (split; [unfold unknown_token, keyword_token, separator_token;
             cbn [fmap list_fmap type]; compute_done|]); try done.
  intros _ _. by exists v.
Qed.

Lemma tokenize_one_or_three_witness :
  let line := keyword ++ separator in
  keyword `prefix_of` cstr line ∧ occurs_in separator (cstr line) ∧
  ∃ v, tokenize line = [keyword_token; separator_token; mkToken TOKEN_STRING v].
Proof.
  intros line.
  assert (Hk : keyword `prefix_of` cstr line) by compute_done.
  assert (Hs : occurs_in separator (cstr line)) by (by exists keyword, []).
  split; [exact Hk|]. split; [exact Hs|].
  exact (proj2 (proj2 (tokenize_one_or_three line)) Hk Hs).
Defined.

(** C9: the text of the StringLiteral token is at most 511 bytes long.  It is
    the text after the separator and the spaces that follow it, cut to its
    first 511 bytes and then at its first line terminator; when that text is
    longer than 511 bytes in a single line, the token holds its first 511
    bytes.  No error is signalled: the three tokens are returned. *)
Theorem string_token_truncated line tok :
  tok ∈ tokenize line → type tok = TOKEN_STRING →
  length (text tok) ≤ 511 ∧
  length (tokenize line) = 3 ∧
  ∀ pre rest,
    first_occurrence separator (cstr line) pre rest →
    text tok = up_to_LF (take 511 (skip_spaces rest)) ∧
    (single_line (cstr line) → 511 < length (skip_spaces rest) →
     text tok = take 511 (skip_spaces rest)).
Proof.
  intros Hin Hty.
  destruct (tokenize_cases line)
    as [[_ E]|[(_ & _ & E)|(_ & pre & rest & v & Hf & E & _ & Hv)]];
    rewrite E in Hin |- *.
  - apply list_elem_of_singleton in Hin as ->. done.
  - apply list_elem_of_singleton in Hin as ->. done.
  - rewrite !elem_of_cons, elem_of_nil in Hin.
    destruct Hin as [->|[->|[->|[]]]]; try done.
    unfold text. cbn [value]. rewrite Hv.
    change (VALUE_SIZE - 1) with 511. split; [|split; [done|]].
    + etrans; [apply length_up_to_LF|]. rewrite length_take. lia.
    + intros pre' rest' Hf'.
      destruct (first_occurrence_unique _ _ _ _ _ _ Hf Hf') as [<- <-].
      split; [done|]. intros Hline Hlong. apply up_to_LF_id.
      apply single_line_take; [|done].
      destruct Hf as [Hsplit _]. rewrite Hsplit in Hline.
      rewrite app_assoc in Hline. apply single_line_suffix in Hline.
      clear -Hline. induction rest as [|c rest IH]; simpl; [done|].
      case_decide; [|done]. apply IH.
      by apply (single_line_suffix [c]).
Qed.

Lemma string_token_truncated_witness :
  let body := keyword ++ lit " " ++ separator ++ lit " " ++ replicate 600 "a"%char in
  let line := body ++ [LF] in
  let tok := mkToken TOKEN_STRING (replicate 511 "a"%char ++ [NUL]) in
  tok ∈ tokenize line ∧ type tok = TOKEN_STRING ∧
  first_occurrence separator (cstr line) (keyword ++ lit " ")
    (lit " " ++ replicate 600 "a"%char ++ [LF]) ∧
  single_line (cstr line) ∧
  511 < length (skip_spaces (lit " " ++ replicate 600 "a"%char ++ [LF])) ∧
  text tok = take 511 (skip_spaces (lit " " ++ replicate 600 "a"%char ++ [LF])).
Proof.
  intros body line tok.
  assert (Hin : tok ∈ tokenize line) by compute_done.
  assert (Hty : type tok = TOKEN_STRING) by reflexivity.
  assert (Hf : first_occurrence separator (cstr line) (keyword ++ lit " ")
                 (lit " " ++ replicate 600 "a"%char ++ [LF])).
  { replace (cstr line)
      with ((keyword ++ lit " ") ++ separator ++
            (lit " " ++ replicate 600 "a"%char ++ [LF]))
      by (vm_compute; reflexivity).
    rewrite separator_bytes. apply first_occurrence_intro. compute_done. }
  assert (Hl : single_line (cstr line)).
  { replace (cstr line) with (body ++ [LF]) by (vm_compute; reflexivity).
    apply single_line_terminated. compute_done. }
  assert (Hlong : 511 < length (skip_spaces (lit " " ++ replicate 600 "a"%char ++ [LF])))
    by (vm_compute; lia).
  split; [exact Hin|]. split; [exact Hty|]. split; [exact Hf|]. split; [exact Hl|].
  split; [exact Hlong|].
  destruct (string_token_truncated line tok Hin Hty) as (_ & _ & H).
  destruct (H _ _ Hf) as [_ H']. exact (H' Hl Hlong).
Defined.

End LexerFacts.

(** ** The parser *)

Section ParserFacts.

Variable tokens : list Token.

(** The test of the [if] in the loop is the production of the grammar. *)
Lemma production_at_code i :
  (i + 2 < length tokens ∧
   type (tokens !!! i) = TOKEN_PRINT ∧
   type (tokens !!! (i + 1)) = TOKEN_SEPARATOR ∧
   type (tokens !!! (i + 2)) = TOKEN_STRING) ↔ production_at tokens i.
Proof.
  split.
  - intros (Hlt & H0 & H1 & H2).
    exists (tokens !!! i), (tokens !!! (i + 1)), (tokens !!! (i + 2)).
    rewrite !list_lookup_lookup_total_lt by lia. done.
  - intros (t0 & t1 & t2 & E0 & E1 & E2 & H0 & H1 & H2).
    apply lookup_lt_Some in E2 as Hlt.
    rewrite (list_lookup_total_correct _ _ _ E0),
      (list_lookup_total_correct _ _ _ E1), (list_lookup_total_correct _ _ _ E2).
    done.
Qed.

Lemma syntax_error_message_text i v :
  syntax_error_message i v = syntax_error_text i (cstr v).
Proof.
  unfold syntax_error_message, syntax_error_text, line_of, fprintf.
  cbn [map concat render app]. by rewrite app_nil_r, <- !app_assoc.
Qed.

Lemma parse_loop_advance fuel i prog :
  production_at tokens i →
  parse_loop (S fuel) tokens (length tokens) i prog =
  parse_loop fuel tokens (length tokens) (i + 3)
    (prog ++ [mkStatement STMT_PRINT (text (tokens !!! (i + 2)))]).
Proof.
  intros H%production_at_code. simpl.
  rewrite decide_True by lia. by rewrite decide_True.
Qed.

Lemma parse_loop_reject fuel i prog t :
  tokens !! i = Some t → ¬ production_at tokens i →
  parse_loop (S fuel) tokens (length tokens) i prog =
  Some (Exited 1 (syntax_error_text i (text t))).
Proof.
  intros E H. simpl. apply lookup_lt_Some in E as Hlt.
  rewrite decide_True by done. rewrite decide_False.
  - by rewrite syntax_error_message_text, (list_lookup_total_correct _ _ _ E).
  - by rewrite production_at_code.
Qed.

Lemma parse_loop_exit fuel i prog :
  length tokens ≤ i →
  parse_loop (S fuel) tokens (length tokens) i prog = Some (Returned (i, prog)).
Proof. intros H. simpl. by rewrite decide_False by lia. Qed.

(** [k] rounds of the loop over [k] productions in a row. *)
Lemma parse_loop_productions k : ∀ k0 fuel prog,
  (∀ j, k0 ≤ j < k0 + k → production_at tokens (3 * j)) →
  parse_loop (k + fuel) tokens (length tokens) (3 * k0) prog =
  parse_loop fuel tokens (length tokens) (3 * (k0 + k))
    (prog ++ map (statement_of tokens) (seq k0 k)).
Proof.
  induction k as [|k IH]; intros k0 fuel prog Hp.
  - change (0 + fuel) with fuel. cbn [seq map].
    by rewrite app_nil_r, Nat.add_0_r.
  - change (S k + fuel) with (S (k + fuel)).
    rewrite parse_loop_advance by (apply Hp; lia).
    replace (3 * k0 + 3) with (3 * S k0) by lia.
    rewrite IH by (intros; apply Hp; lia).
    replace (S k0 + k) with (k0 + S k) by lia.
    cbn [seq map]. by rewrite <- app_assoc.
Qed.

(** The loop never needs more than the fuel [parse_tokens] gives it. *)
Lemma parse_loop_enough_fuel fuel : ∀ i prog,
  0 < fuel → length tokens < fuel + i →
  is_Some (parse_loop fuel tokens (length tokens) i prog).
Proof.
  induction fuel as [|fuel IH]; intros i prog Hpos Hf; [lia|]. simpl.
  case_decide; [|done]. case_decide as Hc; [|done].
  apply IH; lia.
Qed.

Lemma parse_loop_returned fuel : ∀ i prog i' prog',
  parse_inv tokens i prog →
  parse_loop fuel tokens (length tokens) i prog = Some (Returned (i', prog')) →
  parse_inv tokens i' prog' ∧ i' = length tokens.
Proof.
  induction fuel as [|fuel IH]; intros i prog i' prog' Hinv E; [done|].
  simpl in E. destruct Hinv as (Hi & Hle & Hwf).
  case_decide as Hlt.
  - case_decide as Hc; [|done]. apply IH in E; [done|].
    split; [|split].
    + rewrite length_app. simpl. lia.
    + lia.
    + intros j s Hj. apply lookup_app_Some in Hj as [Hj|[Hge Hj]]; [by apply Hwf|].
      apply list_lookup_singleton_Some in Hj as [Hj <-].
      assert (j = length prog) as -> by lia.
      unfold print_of_production. rewrite <- Hi.
      apply production_at_code in Hc
        as (t0 & t1 & t2 & E0 & E1 & E2 & H0 & H1 & H2).
      split; [done|]. exists t0, t1, t2. cbn [stmt_value strdup].
      by rewrite (list_lookup_total_correct _ _ _ E2).
  - simplify_eq. split; [done|]. lia.
Qed.

End ParserFacts.

(** X16: the loop of [parse_tokens] always ends within the rounds its fuel
    allows: [parse] gives a program or a syntax error for every token
    sequence. *)
Lemma parse_total tokens : is_Some (parse tokens).
Proof.
  unfold parse, parse_tokens.
  destruct (parse_loop_enough_fuel tokens (S (length tokens)) 0 []) as [r E];
    [lia..|].
  rewrite E. by destruct r as [[i prog]|status err].
Qed.

(** With no token at all the loop is not entered: the program is empty. *)
Lemma parse_nil : parse [] = Some (Returned []).
Proof. reflexivity. Qed.

(** One production is one Print statement with the text of its literal. *)
Lemma parse_one_statement t0 t1 t2 :
  type t0 = TOKEN_PRINT → type t1 = TOKEN_SEPARATOR → type t2 = TOKEN_STRING →
  parse [t0; t1; t2] = Some (Returned [mkStatement STMT_PRINT (text t2)]).
Proof.
  intros H0 H1 H2. unfold parse, parse_tokens.
  assert (E : parse_loop (S (length [t0; t1; t2])) [t0; t1; t2]
                (length [t0; t1; t2]) 0 [] =
              Some (Returned (3, [mkStatement STMT_PRINT (text t2)]))).
  { refine (eq_trans (parse_loop_productions [t0; t1; t2] 1 0 3 [] _) _).
    - intros j Hj. assert (j = 0) as -> by lia. by exists t0, t1, t2.
    - by rewrite parse_loop_exit by (simpl; lia). }
  by rewrite E.
Qed.

(** C3: when the three-token match fails at the scan position, also when
    fewer than three tokens are left there, the parse ends at once in a
    syntax error that reports the position and the text of the token at that
    position, and no program is returned.  The scan position is [3k] after
    [k] productions; with [k = 0] this is a sequence that does not match the
    grammar at position 0, such as a lone Unknown token or a Keyword-Print
    token without Separator and StringLiteral after it. *)
Theorem parse_syntax_error tokens k t :
  (∀ j, j < k → production_at tokens (3 * j)) →
  tokens !! (3 * k) = Some t →
  ¬ production_at tokens (3 * k) →
  parse tokens = Some (Exited 1 (syntax_error_text (3 * k) (text t))).
Proof.
  intros Hp Ht Hn. unfold parse, parse_tokens.
  apply lookup_lt_Some in Ht as Hlt.
  replace (S (length tokens)) with (k + S (length tokens - k)) by lia.
  rewrite (parse_loop_productions tokens k 0) by (intros; apply Hp; lia).
  cbn [Nat.add]. by rewrite (parse_loop_reject tokens _ _ _ t).
Qed.

Lemma parse_syntax_error_witness :
  parse [unknown_token] = Some (Exited 1 (syntax_error_text 0 (lit "???"))) ∧
  parse [keyword_token] = Some (Exited 1 (syntax_error_text 0 keyword)) ∧
  parse [keyword_token; separator_token; mkToken TOKEN_STRING []; unknown_token] =
    Some (Exited 1 (syntax_error_text 3 (lit "???"))).
Proof.
  split; [|split].
  - apply (parse_syntax_error [unknown_token] 0 unknown_token).
    + intros j Hj. lia.
    + reflexivity.
    + intros (t0 & t1 & t2 & _ & H1 & _). discriminate H1.
  - apply (parse_syntax_error [keyword_token] 0 keyword_token).
    + intros j Hj. lia.
    + reflexivity.
    + intros (t0 & t1 & t2 & _ & H1 & _). discriminate H1.
  - apply (parse_syntax_error
             [keyword_token; separator_token; mkToken TOKEN_STRING []; unknown_token]
             1 unknown_token).
    + intros j Hj. assert (j = 0) as -> by lia.
      by exists keyword_token, separator_token, (mkToken TOKEN_STRING []).
    + reflexivity.
    + intros (t0 & t1 & t2 & _ & H1 & _). discriminate H1.
Defined.

(** C4: when [parse] succeeds, three times the count of the program is the
    number of tokens consumed, which is all of them, and every statement is
    the Print statement of a production of the grammar, in order. *)
Theorem parse_success tokens prog :
  parse tokens = Some (Returned prog) →
  parse_loop (S (length tokens)) tokens (length tokens) 0 [] =
    Some (Returned (length tokens, prog)) ∧
  count prog * 3 = length tokens ∧
  ∀ j s, prog !! j = Some s → print_of_production tokens j s.
Proof.
  unfold parse, parse_tokens. intros E.
  destruct (parse_loop _ _ _ _ _) as [[[i p]|status err]|] eqn:El; simplify_eq.
  apply parse_loop_returned in El as [(Hi & _ & Hwf) ->].
  - split; [done|]. split; [unfold count; lia|done].
  - split; [done|]. split; [simpl; lia|done].
Qed.

Lemma parse_success_witness :
  let tokens := tokenize (keyword ++ lit " " ++ separator ++ lit " Hi" ++ [LF]) in
  let prog := [mkStatement STMT_PRINT (lit "Hi")] in
  parse tokens = Some (Returned prog) ∧
  count prog * 3 = length tokens ∧
  ∀ j s, prog !! j = Some s → print_of_production tokens j s.
Proof.
  intros tokens prog.
  assert (E : parse tokens = Some (Returned prog)) by (vm_compute; reflexivity).
  split; [exact E|]. exact (proj2 (parse_success tokens prog E)).
Defined.

(** ** The code generator *)

Section CodegenFacts.

(** A counting loop whose body appends the text [g i x] for the element [x]
    at index [i] appends these texts in the order of the list. *)
Lemma for_loop_append {A} `{Inhabited A} (l : list A)
    (g : nat → A → list ascii) (body : nat → list ascii → list ascii) :
  (∀ i f, i < length l → body i f = f ++ g i (l !!! i)) →
  ∀ suf pre f, l = pre ++ suf →
    for_loop (length suf) (length pre) body f =
    f ++ concat (imap (λ j, g (length pre + j)) suf).
Proof.
  intros Hbody. induction suf as [|x suf IH]; intros pre f E.
  - simpl. by rewrite app_nil_r.
  - cbn [length for_loop]. rewrite Hbody by (rewrite E, length_app; simpl; lia).
    assert (Hx : l !!! length pre = x).
    { apply list_lookup_total_correct. rewrite E. by apply list_lookup_middle. }
    rewrite Hx.
    replace (S (length pre)) with (length (pre ++ [x]))
      by (rewrite length_app; simpl; lia).
    rewrite IH by (by rewrite <- app_assoc).
    rewrite imap_cons. cbn [concat]. rewrite Nat.add_0_r, <- app_assoc.
    do 3 f_equal. apply imap_ext. intros j y _. simpl.
    f_equal. rewrite length_app. simpl. lia.
Qed.

Lemma for_loop_program (program : Program)
    (g : nat → Statement → list ascii) (body : nat → list ascii → list ascii) f :
  (∀ i f, i < length program → body i f = f ++ g i (program !!! i)) →
  for_loop (count program) 0 body f = f ++ concat (imap g program).
Proof.
  intros Hbody.
  apply (for_loop_append program g body Hbody program [] f eq_refl).
Qed.

(** C2: for every program, [generate_code] writes the data section, with for
    each Print statement [i], in the order of the statements, the two lines
    [msg{i} db "<literal-bytes>", 0xA] and [len{i} equ $ - msg{i}]; then the
    text section with [global _start], the label [_start:], for each Print
    statement [i] in the same order the five-line block of the write syscall
    (number 1, file descriptor 1, buffer [msg{i}], length [len{i}], [syscall]),
    and last the exit block (number 60, zeroed status register, [syscall]).
    Statement [i] is always paired with [msg{i}] and [len{i}]. *)
Theorem generate_code_output (program : Program) (os_error : list ascii) :
  generate_code program true os_error = Returned (expected_output program).
Proof.
  unfold generate_code. cbn [negb]. cbv zeta. f_equal.
  rewrite (for_loop_program program (λ i s, syscall_block i s ++ line_of [])).
  2:{ intros i f _. destruct (stmt_type (program !!! i)).
      rewrite decide_True by done.
      unfold fprintf, syscall_block, line_of. cbn [map concat render].
      by rewrite ?app_nil_r, <- ?app_assoc. }
  rewrite (for_loop_program program data_lines).
  2:{ intros i f _. destruct (stmt_type (program !!! i)).
      rewrite decide_True by done.
      unfold fprintf, data_lines, line_of. cbn [map concat render].
      by rewrite ?app_nil_r, <- ?app_assoc. }
  unfold expected_output, data_section, text_section, exit_block, fprintf, line_of.
  cbn [map concat render]. by rewrite ?app_nil_r, <- ?app_assoc.
Qed.

End CodegenFacts.

(** ** From the line to the program and the file *)

Section Pipeline.

Lemma skip_spaces_suffix s : skip_spaces s `suffix_of` s.
Proof.
  induction s as [|c s IH]; simpl; [done|].
  case_decide; [by apply suffix_cons_r | done].
Qed.

Lemma skip_spaces_app_eol s eol :
  eol = [] ∨ eol = [LF] → skip_spaces (s ++ eol) = skip_spaces s ++ eol.
Proof.
  intros Heol. induction s as [|c s IH]; simpl.
  - by destruct Heol as [->| ->].
  - by case_decide.
Qed.

Lemma up_to_LF_take n s : up_to_LF (take n s) = take n (up_to_LF s).
Proof.
  revert n. induction s as [|c s IH]; intros [|n]; simpl; try done.
  case_decide; [done|]. simpl. by rewrite IH.
Qed.

Lemma up_to_LF_eol s eol : LF ∉ s → eol = [] ∨ eol = [LF] → up_to_LF (s ++ eol) = s.
Proof.
  intros Hs [->| ->]; [rewrite app_nil_r; by apply up_to_LF_id|].
  by apply up_to_LF_app.
Qed.

(** The tokens of a line [<keyword> <separator> <text>], with any number of
    spaces between keyword and separator; [txt] is the text after the
    separator without its line terminator [eol]. *)
Lemma tokenize_print_line m txt eol :
  NUL ∉ txt → LF ∉ txt → eol = [] ∨ eol = [LF] →
  ∃ v, tokenize (keyword ++ replicate m SP ++ separator ++ txt ++ eol) =
         [keyword_token; separator_token; mkToken TOKEN_STRING v] ∧
       cstr v = take 511 (skip_spaces txt).
Proof.
  intros Hnul Hlf Heol.
  set (line := keyword ++ replicate m SP ++ separator ++ txt ++ eol).
  assert (Hline : cstr line = line).
  { apply cstr_id. unfold line. rewrite !elem_of_app.
    intros [H|[H|[H|[H|H]]]].
    - by apply keyword_no_NUL.
    - by apply elem_of_replicate in H as [? _].
    - by apply separator_no_NUL.
    - done.
    - destruct Heol as [->| ->]; [by apply elem_of_nil in H|].
      by apply list_elem_of_singleton in H. }
  assert (Hf : first_occurrence separator (cstr line)
                 (keyword ++ replicate m SP) (txt ++ eol)).
  { rewrite Hline. unfold line. rewrite app_assoc, separator_bytes.
    apply first_occurrence_intro. rewrite elem_of_app, keyword_bytes.
    intros [H|H]; [revert H; compute_done|].
    by apply elem_of_replicate in H as [? _]. }
  destruct (tokenize_cases line)
    as [[Hk _]|[(_ & Hs & _)|(_ & pre & rest & v & Hf' & E & _ & Hv)]].
  - destruct Hk. rewrite Hline. by eexists.
  - destruct Hs. by eapply first_occurrence_occurs.
  - destruct (first_occurrence_unique _ _ _ _ _ _ Hf Hf') as [<- <-].
    exists v. split; [done|]. rewrite Hv. change (VALUE_SIZE - 1) with 511.
    rewrite up_to_LF_take, skip_spaces_app_eol by done.
    rewrite up_to_LF_eol; [done| |done].
    intros H. apply Hlf. by eapply elem_of_suffix, skip_spaces_suffix.
Qed.

(** C1, amended: for a line of the form [<keyword> <separator> <text>],
    [tokenize] and then [parse] give a program of exactly one Print statement.
    Its content is the first 511 bytes of the text with the trailing line
    terminator stripped and the leading spaces after the separator removed;
    it is all of that text when that is at most 511 bytes long. *)
Theorem tokenize_parse_print_line m txt eol :
  NUL ∉ txt → LF ∉ txt → eol = [] ∨ eol = [LF] →
  parse (tokenize (keyword ++ replicate m SP ++ separator ++ txt ++ eol)) =
    Some (Returned [mkStatement STMT_PRINT (take 511 (skip_spaces txt))]) ∧
  (length (skip_spaces txt) ≤ 511 →
   parse (tokenize (keyword ++ replicate m SP ++ separator ++ txt ++ eol)) =
     Some (Returned [mkStatement STMT_PRINT (skip_spaces txt)])).
Proof.
  intros Hnul Hlf Heol.
  destruct (tokenize_print_line m txt eol Hnul Hlf Heol) as (v & -> & Hv).
  rewrite parse_one_statement by done. unfold text. cbn [value]. rewrite Hv.
  split; [done|]. intros Hlen. by rewrite take_ge.
Qed.

Lemma tokenize_parse_print_line_witness :
  let txt := lit " Hello, World!" in
  (NUL ∉ txt) ∧ (LF ∉ txt) ∧
  parse (tokenize (keyword ++ replicate 1 SP ++ separator ++ txt ++ [LF])) =
    Some (Returned [mkStatement STMT_PRINT (take 511 (skip_spaces txt))]) ∧
  skip_spaces txt = lit "Hello, World!".
Proof.
  intros txt.
  assert (Hnul : NUL ∉ txt) by compute_done.
  assert (Hlf : LF ∉ txt) by compute_done.
  split; [exact Hnul|]. split; [exact Hlf|]. split; [|reflexivity].
  exact (proj1 (tokenize_parse_print_line 1 txt [LF] Hnul Hlf (or_intror eq_refl))).
Defined.

(** C1 as first stated fails on a text of 512 bytes: the statement holds its
    first 511 bytes, not the text. *)
Lemma tokenize_parse_long_text_counterexample :
  let txt := replicate 512 "a"%char in
  let line := keyword ++ lit " " ++ separator ++ lit " " ++ txt ++ [LF] in
  (NUL ∉ txt) ∧ (LF ∉ txt) ∧ skip_spaces (lit " " ++ txt) = txt ∧
  parse (tokenize line) =
    Some (Returned [mkStatement STMT_PRINT (replicate 511 "a"%char)]) ∧
  parse (tokenize line) ≠ Some (Returned [mkStatement STMT_PRINT txt]).
Proof.
  intros txt line.
  assert (E : parse (tokenize line) =
              Some (Returned [mkStatement STMT_PRINT (replicate 511 "a"%char)]))
    by (vm_compute; reflexivity).
  split; [compute_done|]. split; [compute_done|]. split; [reflexivity|].
  split; [exact E|]. rewrite E. intros H.
  assert (L := f_equal (λ r, match r with
                             | Some (Returned [s]) => length (stmt_value s)
                             | _ => 0
                             end) H).
  vm_compute in L. discriminate L.
Qed.

(** C10: for a line that holds the keyword and the separator and then
    nothing, only spaces, or only a line terminator, [tokenize] gives a
    StringLiteral token with empty text, [parse] succeeds with exactly one
    Print statement whose content is the empty string, and [generate_code]
    writes the data line [msg0 db "", 0xA] for it. *)
Theorem empty_literal_line m n eol os_error :
  eol = [] ∨ eol = [LF] →
  ∃ v prog out,
    tokenize (keyword ++ replicate m SP ++ separator ++ replicate n SP ++ eol) =
      [keyword_token; separator_token; mkToken TOKEN_STRING v] ∧
    text (mkToken TOKEN_STRING v) = [] ∧
    parse (tokenize (keyword ++ replicate m SP ++ separator ++ replicate n SP ++ eol)) =
      Some (Returned prog) ∧
    prog = [mkStatement STMT_PRINT []] ∧
    generate_code prog true os_error = Returned out ∧
    ∃ rest, out = line_of (lit "section .data") ++
                  line_of (lit "msg0 db " ++ [DQ; DQ] ++ lit ", 0xA") ++ rest.
Proof.
  intros Heol.
  destruct (tokenize_print_line m (replicate n SP) eol) as (v & E & Hv).
  - by intros [? _]%elem_of_replicate.
  - by intros [? _]%elem_of_replicate.
  - done.
  - rewrite <- (app_nil_r (replicate n SP)), skip_spaces_replicate in Hv.
    simpl in Hv.
    exists v, [mkStatement STMT_PRINT []],
      (expected_output [mkStatement STMT_PRINT []]).
    split; [exact E|]. split; [exact Hv|]. rewrite E.
    split; [rewrite parse_one_statement by done; unfold text; cbn [value];
            by rewrite Hv|].
    split; [done|]. split; [vm_compute; reflexivity|].
    eexists. vm_compute. reflexivity.
Qed.

Lemma empty_literal_line_witness :
  ∃ v prog out,
    tokenize (keyword ++ replicate 1 SP ++ separator ++ replicate 2 SP ++ [LF]) =
      [keyword_token; separator_token; mkToken TOKEN_STRING v] ∧
    text (mkToken TOKEN_STRING v) = [] ∧
    parse (tokenize (keyword ++ replicate 1 SP ++ separator ++ replicate 2 SP ++ [LF])) =
      Some (Returned prog) ∧
    prog = [mkStatement STMT_PRINT []] ∧
    generate_code prog true [] = Returned out ∧
    ∃ rest, out = line_of (lit "section .data") ++
                  line_of (lit "msg0 db " ++ [DQ; DQ] ++ lit ", 0xA") ++ rest.
Proof. exact (empty_literal_line 1 2 [LF] [] (or_intror eq_refl)). Defined.

End Pipeline.

(** ** Further properties of the lexer *)

Section LexerMemory.

Implicit Types (p s : list ascii).

Lemma strncmp_cstr a b n : strncmp (cstr a) b n = strncmp a b n.
Proof.
  revert a b. induction n as [|n IH]; intros a b; [done|].
  destruct a as [|c a]; [done|]. cbn [cstr].
  destruct (decide (c = NUL)) as [->|Hc].
  - done.
  - cbn [strncmp deref hd tl]. by rewrite IH.
Qed.

Lemma strstr_cstr hay needle :
  strstr (cstr hay) needle = cstr <$> strstr hay needle.
Proof.
  induction hay as [|c hay IH].
  - simpl. by case_decide.
  - rewrite (strstr_unfold (c :: hay)), strstr_unfold, strncmp_cstr.
    destruct (decide (strncmp (c :: hay) needle (strlen needle) = 0%Z)); [done|].
    cbn [cstr]. destruct (decide (c = NUL)) as [->|Hc]; [done|].
    by rewrite decide_False.
Qed.

Lemma strncpy_cstr dst src n : strncpy dst (cstr src) n = strncpy dst src n.
Proof.
  revert dst src. induction n as [|n IH]; intros [|d dst] [|c src]; try done.
  cbn [cstr]. destruct (decide (c = NUL)) as [->|Hc].
  - done.
  - cbn [strncpy]. rewrite !decide_False by done. by rewrite IH.
Qed.

Lemma literal_array_cstr str : literal_array (cstr str) = literal_array str.
Proof. unfold literal_array. by rewrite strncpy_cstr. Qed.


(** [strstr] steps over bytes that are not the first byte of the needle. *)
Lemma strstr_skip c needle pre rest :
  NUL ∉ c :: needle → NUL ∉ pre → c ∉ pre →
  strstr (pre ++ (c :: needle) ++ rest) (c :: needle) =
    Some ((c :: needle) ++ rest).
Proof.
  intros Hn Hpre Hc. induction pre as [|x pre IH]; rewrite strstr_unfold.
  - rewrite decide_True; [done|].
    apply strncmp_strlen_prefix; [done|]. by exists rest.
  - apply not_elem_of_cons in Hpre as [Hx Hpre].
    apply not_elem_of_cons in Hc as [Hcx Hc].
    rewrite decide_False.
    + cbn [app]. rewrite decide_False by done. by apply IH.
    + intros [p' E]%strncmp_strlen_prefix; [|done].
      simpl in E. congruence.
Qed.

(** The tokens of a line with the keyword, by what [strstr] returns. *)
Lemma tokenize_keyword_line line :
  keyword `prefix_of` cstr line →
  tokenize line =
    match strstr line separator with
    | Some sep =>
        [keyword_token; separator_token;
         mkToken TOKEN_STRING
           (literal_array (skip_spaces (drop (strlen separator) sep)))]
    | None => [keyword_token]
    end.
Proof.
  intros Hk. unfold tokenize. rewrite decide_True; [done|].
  apply strncmp_strlen_prefix; [apply keyword_no_NUL|].
  by apply (prefix_of_cstr keyword line keyword_no_NUL).
Qed.

Lemma tokenize_not_keyword_line line :
  ¬ keyword `prefix_of` cstr line → tokenize line = [unknown_token].
Proof.
  intros Hk. by destruct (tokenize_cases line) as [[_ E]|[[? _]|[? _]]].
Qed.

(** A string shorter than its array has its terminating NUL inside it. *)
Lemma cstr_terminator v :
  length (cstr v) < length v → v !! length (cstr v) = Some NUL.
Proof.
  induction v as [|c v IH]; simpl; [lia|].
  destruct (decide (c = NUL)) as [->|Hc]; simpl; [done|].
  intros H. apply IH. lia.
Qed.

(** [tokenize] reads its argument as a C string. *)
Lemma tokenize_cstr line : tokenize line = tokenize (cstr line).
Proof.
  destruct (decide (keyword `prefix_of` cstr line)) as [Hk|Hk].
  - rewrite (tokenize_keyword_line line Hk).
    rewrite (tokenize_keyword_line (cstr line))
      by (by rewrite (cstr_id (cstr line)) by apply cstr_no_NUL).
    rewrite strstr_cstr.
    pose proof (strstr_spec separator line separator_no_NUL) as Hs.
    destruct (strstr line separator) as [p|]; [|done].
    destruct Hs as (pre & rest & _ & -> & _). cbn [fmap option_fmap option_map].
    rewrite (cstr_app separator rest) by apply separator_no_NUL.
    rewrite strlen_id by apply separator_no_NUL. rewrite !drop_app_length.
    by rewrite <- cstr_skip_spaces, literal_array_cstr.
  - rewrite (tokenize_not_keyword_line line Hk).
    rewrite (tokenize_not_keyword_line (cstr line)); [done|].
    by rewrite (cstr_id (cstr line)) by apply cstr_no_NUL.
Qed.

Lemma cstr_app_NUL a b : cstr (a ++ NUL :: b) = cstr a.
Proof.
  induction a as [|c a IH]; simpl; [done|]. case_decide; [done|]. by rewrite IH.
Qed.

(** X1: a NUL byte ends the line for [tokenize]: what follows it in memory
    never reaches the tokens. *)
Theorem tokenize_stops_at_NUL a b : tokenize (a ++ NUL :: b) = tokenize a.
Proof.
  rewrite (tokenize_cstr (a ++ NUL :: b)), (tokenize_cstr a).
  by rewrite cstr_app_NUL.
Qed.

(** X2: what stands between the keyword and the separator is ignored: bytes
    there that are neither NUL nor the first byte of the separator (0xE2)
    change no token. *)
Theorem tokenize_ignores_between junk rest :
  NUL ∉ junk → "226"%char ∉ junk →
  tokenize (keyword ++ junk ++ separator ++ rest) =
  tokenize (keyword ++ separator ++ rest).
Proof.
  intros Hnul Hjunk.
  assert (Hk : ∀ t, keyword `prefix_of` cstr (keyword ++ t)).
  { intros t. rewrite cstr_app by apply keyword_no_NUL. by eexists. }
  rewrite !tokenize_keyword_line by apply Hk.
  assert (E1 : strstr (keyword ++ junk ++ separator ++ rest) separator =
               Some (separator ++ rest)).
  { rewrite app_assoc, separator_bytes. apply strstr_skip.
    - compute_done.
    - rewrite elem_of_app. intros [H|H]; [by apply keyword_no_NUL|done].
    - rewrite elem_of_app, keyword_bytes.
      intros [H|H]; [revert H; compute_done|done]. }
  assert (E2 : strstr (keyword ++ separator ++ rest) separator =
               Some (separator ++ rest)).
  { rewrite separator_bytes. apply strstr_skip.
    - compute_done.
    - apply keyword_no_NUL.
    - rewrite keyword_bytes. compute_done. }
  by rewrite E1, E2.
Qed.

Lemma tokenize_ignores_between_witness :
  (NUL ∉ lit " := ") ∧ ("226"%char ∉ lit " := ") ∧
  tokenize (keyword ++ lit " := " ++ separator ++ lit " Hi" ++ [LF]) =
  tokenize (keyword ++ separator ++ lit " Hi" ++ [LF]).
Proof.
  assert (H1 : NUL ∉ lit " := ") by compute_done.
  assert (H2 : "226"%char ∉ lit " := ") by compute_done.
  split; [exact H1|]. split; [exact H2|].
  exact (tokenize_ignores_between (lit " := ") (lit " Hi" ++ [LF]) H1 H2).
Defined.

(** X3: every token [tokenize] writes holds, in its array of 512 bytes, a
    string that ends inside the array: the text is shorter than the array
    and the byte after it is NUL. *)
Theorem token_values_terminated line tok :
  tok ∈ tokenize line →
  length (value tok) = VALUE_SIZE ∧
  length (text tok) < VALUE_SIZE ∧
  value tok !! length (text tok) = Some NUL.
Proof.
  intros Hin.
  assert (H : length (value tok) = VALUE_SIZE ∧ length (text tok) < VALUE_SIZE).
  { destruct (tokenize_cases line)
      as [[_ E]|[(_ & _ & E)|(_ & pre & rest & v & _ & E & Hl & Hv)]];
      rewrite E in Hin.
    - apply list_elem_of_singleton in Hin as ->. compute_done.
    - apply list_elem_of_singleton in Hin as ->. compute_done.
    - rewrite !elem_of_cons, elem_of_nil in Hin.
      destruct Hin as [->|[->|[->|[]]]]; [compute_done..|].
      split; [done|]. unfold text. cbn [value]. rewrite Hv.
      eapply Nat.le_lt_trans; [apply length_up_to_LF|].
      rewrite length_take. unfold VALUE_SIZE. lia. }
  destruct H as [Hl Ht]. split; [done|]. split; [done|].
  apply cstr_terminator. unfold text in Ht. by rewrite Hl.
Qed.

Lemma token_values_terminated_witness :
  let line := keyword ++ lit " " ++ separator ++ lit " Hi" ++ [LF] in
  let tok := mkToken TOKEN_STRING (char_array VALUE_SIZE (lit "Hi")) in
  tok ∈ tokenize line ∧
  length (value tok) = VALUE_SIZE ∧
  length (text tok) < VALUE_SIZE ∧
  value tok !! length (text tok) = Some NUL.
Proof.
  intros line tok.
  assert (Hin : tok ∈ tokenize line) by compute_done.
  split; [exact Hin|]. exact (token_values_terminated line tok Hin).
Defined.


End LexerMemory.

(** ** Further properties of the parser *)

Section ParserMore.

Variable tokens : list Token.

(** A syntax error comes from the first position, a multiple of three, where
    the production does not match. *)
Lemma parse_loop_exited fuel : ∀ k0 prog status err,
  (∀ j, j < k0 → production_at tokens (3 * j)) →
  parse_loop fuel tokens (length tokens) (3 * k0) prog = Some (Exited status err) →
  status = 1%Z ∧
  ∃ k t, (∀ j, j < k → production_at tokens (3 * j)) ∧
         tokens !! (3 * k) = Some t ∧ ¬ production_at tokens (3 * k) ∧
         err = syntax_error_text (3 * k) (text t).
Proof.
  induction fuel as [|fuel IH]; intros k0 prog status err Hp E; [done|].
  destruct (decide (3 * k0 < length tokens)) as [Hlt|Hge].
  - destruct (decide (3 * k0 + 2 < length tokens ∧
                      type (tokens !!! (3 * k0)) = TOKEN_PRINT ∧
                      type (tokens !!! (3 * k0 + 1)) = TOKEN_SEPARATOR ∧
                      type (tokens !!! (3 * k0 + 2)) = TOKEN_STRING)) as [Hc|Hc];
      rewrite production_at_code in Hc.
    + rewrite parse_loop_advance in E by done.
      replace (3 * k0 + 3) with (3 * S k0) in E by lia.
      apply IH in E; [done|]. intros j Hj.
      destruct (decide (j = k0)) as [->|]; [done|]. apply Hp. lia.
    + destruct (lookup_lt_is_Some_2 tokens (3 * k0) Hlt) as [t Ht].
      rewrite (parse_loop_reject tokens fuel _ prog t Ht Hc) in E.
      simplify_eq. split; [done|]. by exists k0, t.
  - by rewrite parse_loop_exit in E by lia.
Qed.


End ParserMore.

(** X5: [parse] accepts every sequence of [k] productions and returns their
    [k] Print statements in order, statement [j] holding the text of the
    StringLiteral token [3j + 2]. *)
Theorem parse_accepts tokens k :
  length tokens = 3 * k →
  (∀ j, j < k → production_at tokens (3 * j)) →
  parse tokens =
    Some (Returned
            (map (λ j, mkStatement STMT_PRINT (text (tokens !!! (3 * j + 2))))
                 (seq 0 k))).
Proof.
  intros Hlen Hp. unfold parse, parse_tokens.
  replace (S (length tokens)) with (k + S (length tokens - k)) by lia.
  rewrite (parse_loop_productions tokens k 0) by (intros; apply Hp; lia).
  by rewrite parse_loop_exit by lia.
Qed.

Lemma parse_accepts_witness :
  let tokens := [keyword_token; separator_token;
                 mkToken TOKEN_STRING (char_array VALUE_SIZE (lit "a"));
                 keyword_token; separator_token;
                 mkToken TOKEN_STRING (char_array VALUE_SIZE (lit "b"))] in
  parse tokens =
    Some (Returned
            (map (λ j, mkStatement STMT_PRINT (text (tokens !!! (3 * j + 2))))
                 (seq 0 2))).
Proof.
  intros tokens. apply (parse_accepts tokens 2); [reflexivity|].
  intros j Hj. destruct j as [|[|j]]; [| |lia].
  - by exists keyword_token, separator_token,
      (mkToken TOKEN_STRING (char_array VALUE_SIZE (lit "a"))).
  - by exists keyword_token, separator_token,
      (mkToken TOKEN_STRING (char_array VALUE_SIZE (lit "b"))).
Defined.

(** X6: when [parse] fails, the exit status is 1 and the message names the
    first position, a multiple of three, at which the production does not
    match, with the text of the token there; all productions before it
    match. *)
Theorem parse_failure tokens status err :
  parse tokens = Some (Exited status err) →
  status = 1%Z ∧
  ∃ k t, (∀ j, j < k → production_at tokens (3 * j)) ∧
         tokens !! (3 * k) = Some t ∧ ¬ production_at tokens (3 * k) ∧
         err = syntax_error_text (3 * k) (text t).
Proof.
  unfold parse, parse_tokens. intros E.
  destruct (parse_loop _ _ _ _ _) as [[[i p]|st e]|] eqn:El; simplify_eq.
  apply (parse_loop_exited tokens _ 0 [] _ _) in El; [done|]. intros j Hj. lia.
Qed.

Lemma parse_failure_witness :
  parse [keyword_token; separator_token] =
    Some (Exited 1 (syntax_error_text 0 keyword)) ∧
  ∃ k t, (∀ j, j < k → production_at [keyword_token; separator_token] (3 * j)) ∧
         [keyword_token; separator_token] !! (3 * k) = Some t ∧
         ¬ production_at [keyword_token; separator_token] (3 * k) ∧
         syntax_error_text 0 keyword = syntax_error_text (3 * k) (text t).
Proof.
  assert (E : parse [keyword_token; separator_token] =
              Some (Exited 1 (syntax_error_text 0 keyword)))
    by (vm_compute; reflexivity).
  split; [exact E|].
  exact (proj2 (parse_failure [keyword_token; separator_token] _ _ E)).
Defined.


(** ** Lexer and parser together *)

Section LexParse.

(** X8: a line that does not start with the keyword is rejected by [parse]
    at token 0, with the placeholder [???] as the text reported. *)
Theorem lex_parse_unknown line :
  ¬ keyword `prefix_of` cstr line →
  parse (tokenize line) = Some (Exited 1 (syntax_error_text 0 (lit "???"))).
Proof.
  intros Hk. rewrite (tokenize_not_keyword_line line Hk).
  vm_compute. reflexivity.
Qed.

Lemma lex_parse_unknown_witness :
  ¬ keyword `prefix_of` cstr (lit "print hello" ++ [LF]) ∧
  parse (tokenize (lit "print hello" ++ [LF])) =
    Some (Exited 1 (syntax_error_text 0 (lit "???"))).
Proof.
  assert (H : ¬ keyword `prefix_of` cstr (lit "print hello" ++ [LF]))
    by compute_done.
  split; [exact H|]. exact (lex_parse_unknown _ H).
Defined.

(** X9: a line with the keyword and without the separator is rejected by
    [parse] at token 0, with the keyword as the text reported. *)
Theorem lex_parse_missing_separator line :
  keyword `prefix_of` cstr line → ¬ occurs_in separator (cstr line) →
  parse (tokenize line) = Some (Exited 1 (syntax_error_text 0 keyword)).
Proof.
  intros Hk Hs.
  destruct (tokenize_cases line) as [[Hk' _]|[(_ & _ & E)|(_ & ? & ? & ? & Hf & _)]].
  - done.
  - rewrite E. vm_compute. reflexivity.
  - destruct Hs. by eapply first_occurrence_occurs.
Qed.

Lemma lex_parse_missing_separator_witness :
  let line := keyword ++ lit " Hello" ++ [LF] in
  keyword `prefix_of` cstr line ∧ ¬ occurs_in separator (cstr line) ∧
  parse (tokenize line) = Some (Exited 1 (syntax_error_text 0 keyword)).
Proof.
  intros line.
  assert (Hk : keyword `prefix_of` cstr line) by compute_done.
  assert (Hs : ¬ occurs_in separator (cstr line)).
  { rewrite separator_bytes. intros H%occurs_in_first_byte. revert H.
    compute_done. }
  split; [exact Hk|]. split; [exact Hs|].
  exact (lex_parse_missing_separator line Hk Hs).
Defined.

(** The program of a line with keyword and separator. *)
Lemma lex_parse_first_occurrence line pre rest :
  keyword `prefix_of` cstr line →
  first_occurrence separator (cstr line) pre rest →
  ∃ v, tokenize line = [keyword_token; separator_token; mkToken TOKEN_STRING v] ∧
       cstr v = literal_text rest ∧
       parse (tokenize line) =
         Some (Returned [mkStatement STMT_PRINT (literal_text rest)]).
Proof.
  intros Hk Hf.
  destruct (tokenize_cases line)
    as [[Hk' _]|[(_ & Hs & _)|(_ & pre' & rest' & v & Hf' & E & _ & Hv)]].
  - done.
  - destruct Hs. by eapply first_occurrence_occurs.
  - destruct (first_occurrence_unique _ _ _ _ _ _ Hf Hf') as [<- <-].
    exists v. split; [done|]. split; [done|].
    rewrite E, parse_one_statement by done. unfold text. cbn [value].
    by rewrite Hv.
Qed.

(** X10: for every line that starts with the keyword and holds the
    separator, whatever stands between them, [tokenize] and then [parse] give
    exactly one Print statement.  Its content is the text after the first
    separator without its leading spaces, cut to 511 bytes and at its first
    line terminator. *)
Theorem lex_parse_literal line pre rest :
  keyword `prefix_of` cstr line →
  first_occurrence separator (cstr line) pre rest →
  parse (tokenize line) =
    Some (Returned
            [mkStatement STMT_PRINT (up_to_LF (take 511 (skip_spaces rest)))]).
Proof.
  intros Hk Hf.
  by destruct (lex_parse_first_occurrence line pre rest Hk Hf) as (v & _ & _ & E).
Qed.

Lemma lex_parse_literal_witness :
  let line := keyword ++ lit "(x)" ++ separator ++ lit "  a" ++ [LF] ++ lit "b" in
  keyword `prefix_of` cstr line ∧
  first_occurrence separator (cstr line) (keyword ++ lit "(x)")
    (lit "  a" ++ [LF] ++ lit "b") ∧
  parse (tokenize line) = Some (Returned [mkStatement STMT_PRINT (lit "a")]).
Proof.
  intros line.
  assert (Hk : keyword `prefix_of` cstr line) by compute_done.
  assert (Hf : first_occurrence separator (cstr line) (keyword ++ lit "(x)")
                 (lit "  a" ++ [LF] ++ lit "b")).
  { replace (cstr line)
      with ((keyword ++ lit "(x)") ++ separator ++ lit "  a" ++ [LF] ++ lit "b")
      by (vm_compute; reflexivity).
    rewrite separator_bytes. apply first_occurrence_intro. compute_done. }
  split; [exact Hk|]. split; [exact Hf|].
  exact (lex_parse_literal line _ _ Hk Hf).
Defined.

(** Lexing and parsing a line gives a syntax error with status 1 or a
    program of one statement. *)
Lemma lex_parse_cases line :
  (∃ err, parse (tokenize line) = Some (Exited 1 err)) ∨
  (∃ s, parse (tokenize line) = Some (Returned [s])).
Proof.
  destruct (tokenize_cases line)
    as [[_ E]|[(_ & _ & E)|(_ & pre & rest & v & _ & E & _)]]; rewrite E.
  - left. eexists. vm_compute. reflexivity.
  - left. eexists. vm_compute. reflexivity.
  - right. eexists. by apply parse_one_statement.
Qed.

End LexParse.

(** ** Labels of the generated code *)

Section Labels.






End Labels.

(** ** The driver *)

Section Driver.

Lemma generate_code_writes (program : Program) (os_error : list ascii) :
  generate_code program true os_error = Returned (expected_output program).
Proof.
  unfold generate_code. cbn [negb]. cbv zeta. f_equal.
  rewrite (for_loop_program program (λ i s, syscall_block i s ++ line_of [])).
  2:{ intros i f _. destruct (stmt_type (program !!! i)).
      rewrite decide_True by done.
      unfold fprintf, syscall_block, line_of. cbn [map concat render].
      by rewrite ?app_nil_r, <- ?app_assoc. }
  rewrite (for_loop_program program data_lines).
  2:{ intros i f _. destruct (stmt_type (program !!! i)).
      rewrite decide_True by done.
      unfold fprintf, data_lines, line_of. cbn [map concat render].
      by rewrite ?app_nil_r, <- ?app_assoc. }
  unfold expected_output, data_section, text_section, exit_block, fprintf, line_of.
  cbn [map concat render]. by rewrite ?app_nil_r, <- ?app_assoc.
Qed.

Lemma generate_code_unwritable (program : Program) (os_error : list ascii) :
  generate_code program false os_error =
    Exited 1 (line_of (lit "Cannot open output file: " ++ os_error)).
Proof.
  unfold generate_code, fprintf, line_of. cbn [negb map concat render].
  by rewrite ?app_nil_r, <- ?app_assoc.
Qed.

Lemma fgets_read_first_line n first rest :
  LF ∉ first → fgets_read n (first ++ LF :: rest) = take n (first ++ [LF]).
Proof.
  revert first. induction n as [|n IH]; intros first Hf; [by destruct first|].
  destruct first as [|c first]; simpl; [by rewrite take_nil|].
  apply not_elem_of_cons in Hf as [Hc Hf].
  rewrite decide_False by done. by rewrite IH.
Qed.

Lemma fgets_read_take n s : fgets_read n (take n s) = fgets_read n s.
Proof.
  revert s. induction n as [|n IH]; intros [|c s]; simpl; try done.
  case_decide; [done|]. by rewrite IH.
Qed.

(** A whole line that fits is read as it is. *)
Lemma fgets_read_line n body eol :
  LF ∉ body → eol = [] ∨ eol = [LF] → length (body ++ eol) ≤ n →
  fgets_read n (body ++ eol) = body ++ eol.
Proof.
  intros Hb Heol Hlen. destruct Heol as [->| ->].
  - rewrite app_nil_r in *.
    revert n Hlen. induction body as [|c body IH]; intros [|n] Hlen;
      simpl in *; try done; try lia.
    apply not_elem_of_cons in Hb as [Hc Hb].
    rewrite decide_False by done. rewrite IH by (done || lia). done.
  - rewrite fgets_read_first_line by done. by apply take_ge.
Qed.

(** The run of [main] by its stages, once a line was read. *)
Lemma main_stages argv f r_error w_ok w_error :
  2 ≤ length argv → f ≠ [] →
  main argv (Some f) r_error w_ok w_error =
    let tokens := tokenize (fgets_read 1023 f) in
    match parse tokens with
    | Some (Returned program) =>
        if w_ok then
          Some (mkRun 0
                  (tokens_dump tokens ++ parsed_dump program ++
                   line_of (lit "Assembly written to out.s"))
                  [] (Some (expected_output program)))
        else
          Some (mkRun 1 (tokens_dump tokens ++ parsed_dump program)
                  (line_of (lit "Cannot open output file: " ++ w_error)) None)
    | Some (Exited status err) =>
        Some (mkRun status (tokens_dump tokens) err None)
    | None => None
    end.
Proof.
  intros Hargc Hf. unfold main. cbv zeta.
  rewrite decide_False by lia.
  destruct f as [|c f]; [done|]. cbn [fgets]. change (1024 - 1) with 1023.
  rewrite (tokenize_cstr (_ ++ [NUL])), cstr_app_NUL, <- tokenize_cstr.
  set (tokens := tokenize _).
  assert (Hdump : ∀ out,
    for_loop (length tokens) 0
      (λ i out, fprintf out
         [Txt (lit "Token "); Pd i; Txt (lit ": Type=");
          Pd (TokenType_int (type (tokens !!! i))); Txt (lit ", Value=");
          Ps (value (tokens !!! i)); Txt [LF]]) out =
    out ++ concat (imap token_line tokens)).
  { intros out.
    apply (for_loop_append tokens token_line _) with (pre := []); [|done].
    intros i o _. unfold fprintf, token_line, line_of, text.
    cbn [map concat render]. by rewrite ?app_nil_r, <- ?app_assoc. }
  rewrite Hdump. unfold parse.
  destruct (parse_tokens tokens (length tokens)) as [[program|status err]|];
    [|done..].
  assert (Hparsed : ∀ out,
    for_loop (count program) 0
      (λ i out, fprintf out
         [Txt (lit "Statement "); Pd i; Txt (lit ": PRINT " ++ [DQ]);
          Ps (stmt_value (program !!! i)); Txt ([DQ] ++ [LF])]) out =
    out ++ concat (imap statement_line program)).
  { intros out. apply for_loop_program.
    intros i o _. unfold fprintf, statement_line, line_of.
    cbn [map concat render]. by rewrite ?app_nil_r, <- ?app_assoc. }
  rewrite Hparsed. destruct w_ok.
  - rewrite generate_code_writes.
    unfold tokens_dump, parsed_dump, fprintf, line_of.
    cbn [map concat render]. by rewrite ?app_nil_r, <- ?app_assoc.
  - rewrite generate_code_unwritable.
    unfold tokens_dump, parsed_dump, fprintf, line_of.
    cbn [map concat render]. by rewrite ?app_nil_r, <- ?app_assoc.
Qed.

Lemma fgets_nonempty n s : s ≠ [] → fgets (S n) s = Some (fgets_read n s ++ [NUL]).
Proof. destruct s; [done|]. intros _. unfold fgets. by rewrite Nat.sub_1_r. Qed.

(** X12: the exit status of [main] is 0 or 1; it is 0 exactly when the run
    created [out.s], and the file then holds the code of a program of exactly
    one statement. *)
Theorem main_exit_status argv fopen_r r_error w_ok w_error run :
  main argv fopen_r r_error w_ok w_error = Some run →
  (exit_status run = 0%Z ∨ exit_status run = 1%Z) ∧
  (exit_status run = 0%Z ↔ is_Some (out_s run)) ∧
  (∀ file, out_s run = Some file → ∃ s, file = expected_output [s]).
Proof.
  assert (Hfail : ∀ out err,
    let r := mkRun 1 out err None in
    (exit_status r = 0%Z ∨ exit_status r = 1%Z) ∧
    (exit_status r = 0%Z ↔ is_Some (out_s r)) ∧
    (∀ file, out_s r = Some file → ∃ s, file = expected_output [s])).
  { intros out err. cbn. split; [by right|]. split; [|done].
    split; [done|]. by intros [? ?]. }
  intros E. destruct (decide (length argv < 2)) as [Hargc|Hargc].
  - unfold main in E. rewrite decide_True in E by done.
    destruct (argv !! 0); simplify_eq. apply Hfail.
  - destruct fopen_r as [f|].
    + destruct f as [|c f].
      { unfold main in E. by rewrite decide_False in E by done. }
      rewrite main_stages in E by (done || lia). cbv zeta in E.
      destruct (lex_parse_cases (fgets_read 1023 (c :: f))) as [[err Hp]|[s Hp]];
        rewrite Hp in E.
      * simplify_eq. apply Hfail.
      * destruct w_ok; simplify_eq; [|apply Hfail]. cbn.
        split; [by left|]. split; [done|]. intros file [= <-]. by exists s.
    + unfold main in E. rewrite decide_False in E by done.
      simplify_eq. apply Hfail.
Qed.

Lemma main_exit_status_witness :
  ∃ run,
    main [lit "veerji"; lit "hello.veerji"]
      (Some (keyword ++ lit " " ++ separator ++ lit " Hi" ++ [LF])) [] true [] =
      Some run ∧
    (exit_status run = 0%Z ∨ exit_status run = 1%Z) ∧
    (exit_status run = 0%Z ↔ is_Some (out_s run)) ∧
    (∀ file, out_s run = Some file → ∃ s, file = expected_output [s]).
Proof.
  assert (E : ∃ run,
    main [lit "veerji"; lit "hello.veerji"]
      (Some (keyword ++ lit " " ++ separator ++ lit " Hi" ++ [LF])) [] true [] =
      Some run) by (eexists; vm_compute; reflexivity).
  destruct E as [run E]. exists run. split; [exact E|].
  exact (main_exit_status _ _ _ _ _ run E).
Defined.

(** X13: [main] compiles the first line of the file only, and of a longer
    first line its first 1023 bytes: what follows the first line terminator
    changes nothing of the run. *)
Theorem main_reads_first_line argv first rest r_error w_ok w_error :
  LF ∉ first →
  main argv (Some (first ++ LF :: rest)) r_error w_ok w_error =
  main argv (Some (take 1023 (first ++ [LF]))) r_error w_ok w_error.
Proof.
  intros Hf.
  assert (E : fgets 1024 (first ++ LF :: rest) =
              fgets 1024 (take 1023 (first ++ [LF]))).
  { rewrite !fgets_nonempty.
    - rewrite fgets_read_take. by rewrite !fgets_read_first_line by done.
    - by destruct first.
    - by destruct first. }
  unfold main. by rewrite E.
Qed.

Lemma main_reads_first_line_witness :
  let first := keyword ++ lit " " ++ separator ++ lit " Hi" in
  (LF ∉ first) ∧
  main [lit "veerji"; lit "hello.veerji"]
    (Some (first ++ LF :: lit "second line")) [] true [] =
  main [lit "veerji"; lit "hello.veerji"]
    (Some (take 1023 (first ++ [LF]))) [] true [].
Proof.
  intros first.
  assert (H : LF ∉ first) by compute_done.
  split; [exact H|]. exact (main_reads_first_line _ first _ _ _ _ H).
Defined.

(** X14: for a file that is one line [<keyword> <separator> <text>] of at
    most 1023 bytes, [main] prints the three tokens and the statement, and,
    when [out.s] can be opened, writes the code of the one Print statement
    and exits with 0; when it cannot, it reports that on [stderr], creates no
    file and exits with 1.  The content printed and compiled is the first
    511 bytes of the text without its leading spaces. *)
Theorem main_print_line argv m txt eol r_error w_ok w_error :
  2 ≤ length argv → NUL ∉ txt → LF ∉ txt → eol = [] ∨ eol = [LF] →
  length (keyword ++ replicate m SP ++ separator ++ txt ++ eol) ≤ 1023 →
  let content := take 511 (skip_spaces txt) in
  let out :=
    line_of (lit "=== TOKENS ===") ++
    line_of (lit "Token 0: Type=0, Value=" ++ keyword) ++
    line_of (lit "Token 1: Type=1, Value=" ++ separator) ++
    line_of (lit "Token 2: Type=2, Value=" ++ content) ++
    line_of (lit "=== PARSED ===") ++
    line_of (lit "Statement 0: PRINT " ++ [DQ] ++ content ++ [DQ]) in
  main argv (Some (keyword ++ replicate m SP ++ separator ++ txt ++ eol))
    r_error w_ok w_error =
  Some (if w_ok then
          mkRun 0 (out ++ line_of (lit "Assembly written to out.s")) []
            (Some (expected_output [mkStatement STMT_PRINT content]))
        else
          mkRun 1 out (line_of (lit "Cannot open output file: " ++ w_error)) None).
Proof.
  intros Hargc Hnul Hlf Heol Hlen. cbv zeta.
  rewrite main_stages; [|done|by rewrite keyword_bytes].
  replace (keyword ++ replicate m SP ++ separator ++ txt ++ eol)
    with ((keyword ++ replicate m SP ++ separator ++ txt) ++ eol) in *
    by (by rewrite <- !app_assoc).
  rewrite fgets_read_line; [|..|done]; [| |done].
  2:{ rewrite !elem_of_app, keyword_bytes, separator_bytes.
      intros [H|[H|[H|H]]]; [revert H; compute_done| |revert H; compute_done|done].
      by apply elem_of_replicate in H as [? _]. }
  rewrite <- !app_assoc. cbv zeta.
  destruct (tokenize_print_line m txt eol Hnul Hlf Heol) as (v & -> & Hv).
  rewrite parse_one_statement by done.
  assert (Et : text (mkToken TOKEN_STRING v) = take 511 (skip_spaces txt))
    by (unfold text; cbn [value]; by rewrite Hv).
  assert (Ec : cstr (text (mkToken TOKEN_STRING v)) = take 511 (skip_spaces txt)).
  { rewrite <- Et. apply cstr_id, cstr_no_NUL. }
  unfold tokens_dump, parsed_dump, token_line, statement_line.
  cbn [imap concat stmt_value compose].
  rewrite Ec, !Et, keyword_token_text, separator_token_text.
  cbn [type keyword_token separator_token TokenType_int].
  destruct w_ok; f_equal; unfold line_of;
    by rewrite ?app_nil_r, <- ?app_assoc.
Qed.

Lemma main_print_line_witness :
  let txt := lit " Hello, World!" in
  let content := take 511 (skip_spaces txt) in
  (NUL ∉ txt) ∧ (LF ∉ txt) ∧ content = lit "Hello, World!" ∧
  main [lit "veerji"; lit "hello.veerji"]
    (Some (keyword ++ replicate 1 SP ++ separator ++ txt ++ [LF])) [] true [] =
  Some (mkRun 0
          ((line_of (lit "=== TOKENS ===") ++
            line_of (lit "Token 0: Type=0, Value=" ++ keyword) ++
            line_of (lit "Token 1: Type=1, Value=" ++ separator) ++
            line_of (lit "Token 2: Type=2, Value=" ++ content) ++
            line_of (lit "=== PARSED ===") ++
            line_of (lit "Statement 0: PRINT " ++ [DQ] ++ content ++ [DQ])) ++
           line_of (lit "Assembly written to out.s")) []
          (Some (expected_output [mkStatement STMT_PRINT content]))).
Proof.
  intros txt content.
  assert (Hnul : NUL ∉ txt) by compute_done.
  assert (Hlf : LF ∉ txt) by compute_done.
  split; [exact Hnul|]. split; [exact Hlf|]. split; [reflexivity|].
  refine (main_print_line [lit "veerji"; lit "hello.veerji"] 1 txt [LF] [] true []
            _ Hnul Hlf (or_intror eq_refl) _).
  - simpl. lia.
  - vm_compute. lia.
Defined.

(** X15: when the first line of the file lacks the keyword or the separator,
    [main] prints the one token it got, reports the syntax error at token 0
    with that token's text on [stderr], creates no [out.s] and exits with
    1. *)
Theorem main_syntax_error argv f r_error w_ok w_error :
  2 ≤ length argv → f ≠ [] →
  ¬ (keyword `prefix_of` cstr (fgets_read 1023 f) ∧
     occurs_in separator (cstr (fgets_read 1023 f))) →
  ∃ tok,
    (tok = unknown_token ∨ tok = keyword_token) ∧
    tokenize (fgets_read 1023 f) = [tok] ∧
    main argv (Some f) r_error w_ok w_error =
      Some (mkRun 1
              (line_of (lit "=== TOKENS ===") ++
               line_of (lit "Token 0: Type=" ++ decimal (TokenType_int (type tok)) ++
                        lit ", Value=" ++ text tok))
              (syntax_error_text 0 (text tok)) None).
Proof.
  intros Hargc Hf Hbad. rewrite main_stages by done. cbv zeta.
  destruct (tokenize_cases (fgets_read 1023 f))
    as [[_ E]|[(_ & _ & E)|(Hk & pre & rest & v & Hfo & _)]].
  - exists unknown_token. rewrite E. split; [by left|]. split; [done|].
    vm_compute. reflexivity.
  - exists keyword_token. rewrite E. split; [by right|]. split; [done|].
    vm_compute. reflexivity.
  - destruct Hbad. split; [done|]. by eapply first_occurrence_occurs.
Qed.

Lemma main_syntax_error_witness :
  let f := lit "print hello" ++ [LF] in
  f ≠ [] ∧
  ¬ (keyword `prefix_of` cstr (fgets_read 1023 f) ∧
     occurs_in separator (cstr (fgets_read 1023 f))) ∧
  ∃ tok,
    (tok = unknown_token ∨ tok = keyword_token) ∧
    tokenize (fgets_read 1023 f) = [tok] ∧
    main [lit "veerji"; lit "hello.veerji"] (Some f) [] true [] =
      Some (mkRun 1
              (line_of (lit "=== TOKENS ===") ++
               line_of (lit "Token 0: Type=" ++ decimal (TokenType_int (type tok)) ++
                        lit ", Value=" ++ text tok))
              (syntax_error_text 0 (text tok)) None).
Proof.
  intros f.
  assert (Hf : f ≠ []) by done.
  assert (Hbad : ¬ (keyword `prefix_of` cstr (fgets_read 1023 f) ∧
                    occurs_in separator (cstr (fgets_read 1023 f)))).
  { intros [Hk _]. revert Hk. compute_done. }
  split; [exact Hf|]. split; [exact Hbad|].
  refine (main_syntax_error [lit "veerji"; lit "hello.veerji"] f [] true [] _ Hf Hbad).
  simpl. lia.
Defined.

End Driver.
